(** * mawo-razdel: the SynTagRus segmentation rule engine

    A shallow embedding of [mawo_razdel/syntagrus_patterns.py]: Python
    strings are lists of code points, integer offsets are [Z], the
    regular expressions of the rule table are terms of a small regex
    type run by a backtracking matcher with the priorities of Python's
    [re] (left alternative first, greedy repetition), and [IndexError]
    is the [None] of the option monad. *)

From Stdlib Require Import QArith Qminmax Lqa.
From stdpp Require Import base numbers option list sorting gmap strings.

Local Open Scope Z_scope.

(** ** Python strings *)

(** A [str] is a sequence of code points. *)
Abbreviation str := (list N).

Module Utf8.
(** Source literals are written in UTF-8; [decode] recovers the code
    points of a well-formed literal. *)
Fixpoint decode_bytes (bs : list N) : list N :=
  match bs with
  | [] => []
  | b :: r =>
    if (b <? 128)%N then b :: decode_bytes r
    else if (b <? 224)%N then
      match r with
      | c1 :: r1 => ((b mod 32) * 64 + c1 mod 64)%N :: decode_bytes r1
      | _ => []
      end
    else if (b <? 240)%N then
      match r with
      | c1 :: c2 :: r2 =>
        ((b mod 16) * 4096 + (c1 mod 64) * 64 + c2 mod 64)%N :: decode_bytes r2
      | _ => []
      end
    else
      match r with
      | c1 :: c2 :: c3 :: r3 =>
        ((b mod 8) * 262144 + (c1 mod 64) * 4096 + (c2 mod 64) * 64 + c3 mod 64)%N
          :: decode_bytes r3
      | _ => []
      end
  end.

Definition decode (s : string) : str :=
  decode_bytes (Ascii.N_of_ascii <$> String.list_ascii_of_string s).
End Utf8.

Abbreviation u8 := Utf8.decode.

Definition len {A} (s : list A) : Z := Z.of_nat (length s).

(** [PySlice_AdjustIndices] for step 1: a negative index counts from the
    end, and both ends are clipped to [0, len]. *)
Definition adjust_index (n i : Z) : Z :=
  if i <? 0 then Z.max 0 (i + n) else Z.min i n.

(** [s[a:b]] *)
Definition slice {A} (s : list A) (a b : Z) : list A :=
  let a' := adjust_index (len s) a in
  let b' := adjust_index (len s) b in
  take (Z.to_nat (b' - a')) (drop (Z.to_nat a') s).

(** [s[a:]] *)
Definition slice_from {A} (s : list A) (a : Z) : list A :=
  drop (Z.to_nat (adjust_index (len s) a)) s.

(** [s[i]]; [None] is [IndexError]. *)
Definition py_index {A} (s : list A) (i : Z) : option A :=
  if (0 <=? i) && (i <? len s) then s !! Z.to_nat i
  else if (- len s <=? i) && (i <? 0) then s !! Z.to_nat (i + len s)
  else None.

(** [Py_UNICODE_ISSPACE]: the code points [str.strip()] removes and the
    class [\s] of a [str] pattern. *)
Definition Py_UNICODE_ISSPACE (c : N) : bool :=
  ((9 <=? c) && (c <=? 13) || (28 <=? c) && (c <=? 32)
   || (c =? 133) || (c =? 160) || (c =? 5760)
   || (8192 <=? c) && (c <=? 8202)
   || (c =? 8232) || (c =? 8233) || (c =? 8239) || (c =? 8287)
   || (c =? 12288))%N.

Fixpoint lstrip (s : str) : str :=
  match s with
  | c :: r => if Py_UNICODE_ISSPACE c then lstrip r else s
  | [] => []
  end.

Definition rstrip (s : str) : str := reverse (lstrip (reverse s)).

(** [s.strip()] *)
Definition strip (s : str) : str := rstrip (lstrip s).

(** [range(a, b)] *)
Definition range (a b : Z) : list Z := seqZ a (b - a).

(** The part of the interpreter's Unicode database the module reads:
    [str.lower] (a function of the whole string: the final sigma rule
    looks at context), [str.isdigit] and [str.islower] of one
    character, and the alphanumeric test behind [\w] and [\b]. *)
Class UnicodeData := {
  str_lower : str → str;
  ch_isdigit : N → bool;
  ch_islower : N → bool;
  ch_isalnum : N → bool;
}.

(** ** Regular expressions

    The constructs the module's patterns use. Repetition is over a
    character class, as in every pattern of the source. *)
Inductive regex :=
| REps                                  (* the empty pattern *)
| RSet (p : N → bool)                   (* a class or a literal character *)
| RSeq (r1 r2 : regex)
| RAlt (r1 r2 : regex)                  (* r1|r2 *)
| RStar (p : N → bool)                  (* [..]*, greedy *)
| RPlus (p : N → bool)                  (* [..]+, greedy *)
| RLook (r : regex)                     (* (?=r) *)
| RWordB.                               (* \b *)

(** [(?:r)?] *)
Definition ROpt (r : regex) : regex := RAlt r REps.

Definition RChr (c : N) : regex := RSet (N.eqb c).

(** A literal, as [re.escape] makes one. *)
Fixpoint RLit (s : str) : regex :=
  match s with
  | [] => REps
  | c :: r => RSeq (RChr c) (RLit r)
  end.

(** [(a|b|...)] *)
Fixpoint RAlts (rs : list regex) : regex :=
  match rs with
  | [] => REps
  | [r] => r
  | r :: rs' => RAlt r (RAlts rs')
  end.

Definition in_range (lo hi c : N) : bool := ((lo <=? c) && (c <=? hi))%N.

(** The number of characters from offset [i] on that are in the class. *)
Fixpoint run_from (p : N → bool) (s : str) : nat :=
  match s with
  | c :: r => if p c then S (run_from p r) else 0
  | [] => 0
  end.

Definition run (p : N → bool) (s : str) (i : nat) : nat := run_from p (drop i s).

(** Greedy repetition: the longest run first, then one character less at
    a time down to [least]. *)
Fixpoint greedy (k : nat → option nat) (i least n : nat) : option nat :=
  if (n <? least)%nat then None
  else match k (i + n)%nat with
       | Some e => Some e
       | None => match n with
                 | O => None
                 | S n' => greedy k i least n'
                 end
       end.

Section Matcher.
Context {U : UnicodeData}.

(** [\w] of a [str] pattern *)
Definition is_word (c : N) : bool := ch_isalnum c || (c =? 95)%N.

Definition word_at (s : str) (i : nat) : bool :=
  match s !! i with
  | Some c => is_word c
  | None => false
  end.

(** [\b]: exactly one of the two neighbours is a word character; there
    is none before the start and none after the end. *)
Definition word_boundary (s : str) (i : nat) : bool :=
  negb (eqb (match i with O => false | S j => word_at s j end) (word_at s i)).

(** The matcher in continuation-passing style: [rmatch r s k i] matches
    [r] at offset [i] of [s] and hands the offset after the match to
    [k]; when [k] fails the next alternative is tried. The result is the
    end of the first match in Python's order. *)
Fixpoint rmatch (r : regex) (s : str) (k : nat → option nat) (i : nat) : option nat :=
  match r with
  | REps => k i
  | RSet p =>
    match s !! i with
    | Some c => if p c then k (S i) else None
    | None => None
    end
  | RSeq r1 r2 => rmatch r1 s (rmatch r2 s k) i
  | RAlt r1 r2 =>
    match rmatch r1 s k i with
    | Some e => Some e
    | None => rmatch r2 s k i
    end
  | RStar p => greedy k i 0 (run p s i)
  | RPlus p => greedy k i 1 (run p s i)
  | RLook r' =>
    match rmatch r' s Some i with
    | Some _ => k i
    | None => None
    end
  | RWordB => if word_boundary s i then k i else None
  end.

(** [pattern.match(s, i)]: the end of the match that starts at [i]. *)
Definition match_at (r : regex) (s : str) (i : nat) : option nat := rmatch r s Some i.

(** [pattern.finditer(s)] as (start, end) pairs: the start offsets
    0..len(s) are tried in order, those inside the previous match are
    skipped, and the scan resumes at the end of a match. (After an empty
    match it resumes one further; no pattern of the rule table matches
    the empty string.) *)
Fixpoint scan (r : regex) (s : str) (starts : list nat) (next : nat) : list (nat * nat) :=
  match starts with
  | [] => []
  | i :: rest =>
    if (i <? next)%nat then scan r s rest next
    else match match_at r s i with
         | Some e => (i, e) :: scan r s rest (Nat.max e (S i))
         | None => scan r s rest next
         end
  end.

Definition finditer (r : regex) (s : str) : list (nat * nat) :=
  scan r s (seq 0 (S (length s))) 0.

(** [pattern.search(s)] *)
Definition search (r : regex) (s : str) : option (nat * nat) := head (finditer r s).

End Matcher.

(** ** The rule table and the exception sets *)

(** [ord(c)] of a one-character literal *)
Definition ord (c : string) : N := default 0%N (head (u8 c)).

Infix "⊙" := RSeq (at level 41, right associativity).

(** [[.!?]] *)
Definition cls_end (c : N) : bool :=
  ((c =? ord ".") || (c =? ord "!") || (c =? ord "?"))%N.

(** [[!?]] *)
Definition cls_excl (c : N) : bool := ((c =? ord "!") || (c =? ord "?"))%N.

(** [[А-ЯЁ]] *)
Definition cls_upper (c : N) : bool :=
  in_range (ord "А") (ord "Я") c || (c =? ord "Ё")%N.

(** [[а-яё]] *)
Definition cls_lower (c : N) : bool :=
  in_range (ord "а") (ord "я") c || (c =? ord "ё")%N.

(** The lookahead class of [sentence_end_capital]: an upper-case
    Cyrillic letter, an opening guillemet, a double quote (34), an
    apostrophe or an opening parenthesis. *)
Definition cls_opening (c : N) : bool :=
  in_range (ord "А") (ord "Я") c
  || (c =? ord "Ё")%N || (c =? ord "«")%N || (c =? 34)%N || (c =? ord "'")%N
  || (c =? ord "(")%N.

(** [\n] *)
Definition cls_nl (c : N) : bool := (c =? 10)%N.

Record SegmentationRule := {
  name : string;
  pattern : regex;
  is_boundary : bool;
  priority : Z;
  description : string;
}.

(** The abbreviations that do not end a sentence, in the order of the
    set display. *)
Definition ABBREVIATIONS_display : list string := [
  "г"; "гг"; "г-н"; "г-жа";
  "ул"; "пр"; "пл"; "пер"; "просп"; "наб";
  "д"; "дом"; "корп"; "стр"; "кв";
  "обл"; "р-н"; "п"; "с"; "дер"; "пос";
  "акад"; "проф"; "доц"; "к"; "канд"; "докт";
  "м"; "н"; "мл"; "ст";
  "им"; "ген"; "полк"; "подп"; "лейт"; "кап";
  "в"; "вв"; "р"; "руб"; "коп";
  "ч"; "час"; "мин"; "сек";
  "т"; "тт"; "пп"; "рис"; "илл"; "табл";
  "см"; "ср"; "напр"; "в т.ч"; "и т.д"; "и т.п"; "и др";
  "др"; "проч"; "прим"; "примеч";
  "кг"; "мг"; "ц"; "л";
  "мм"; "км"; "га";
  "млн"; "млрд"; "тыс"; "трлн";
  "о-во"; "о-ва"; "о-ние"; "о-ния";
  "зам"; "пом"; "зав"; "нач";
  "etc"; "et al"; "ibid"; "op cit";
  "англ"; "нем"; "франц"; "итал"; "исп"
].

Definition ABBREVIATIONS : gset str := list_to_set (u8 <$> ABBREVIATIONS_display).

Definition TITLES : gset str := list_to_set (u8 <$> [
  "президент"; "премьер"; "министр"; "губернатор"; "мэр"; "директор";
  "председатель"; "генеральный"; "академик"; "профессор"; "доктор";
  "господин"; "госпожа"; "товарищ"
]).

Definition SPEECH_VERBS : gset str := list_to_set (u8 <$> [
  "сказал"; "сказала"; "сказали"; "говорил"; "говорила";
  "ответил"; "ответила"; "спросил"; "спросила"; "заявил"; "заявила";
  "отметил"; "отметила"; "подчеркнул"; "подчеркнула";
  "добавил"; "добавила"; "пояснил"; "пояснила"; "уточнил"; "уточнила"
]).

(** An instance: the attributes [_compile_patterns] sets. *)
Record SynTagRusPatterns := {
  rules : list SegmentationRule;
  abbr_pattern : regex;
  initials_pattern : regex;
  sentence_end_pattern : regex;
}.

Definition sentence_end_capital : SegmentationRule := {|
  name := "sentence_end_capital";
  pattern := RPlus cls_end ⊙ RPlus Py_UNICODE_ISSPACE ⊙ RLook (RSet cls_opening);
  is_boundary := true;
  priority := 50;
  description := "Sentence end + capital letter";
|}.

Definition paragraph_end : SegmentationRule := {|
  name := "paragraph_end";
  pattern := RPlus cls_end ⊙ RStar Py_UNICODE_ISSPACE ⊙ RSet cls_nl
             ⊙ RStar Py_UNICODE_ISSPACE ⊙ RSet cls_nl;
  is_boundary := true;
  priority := 45;
  description := "Sentence end + paragraph break";
|}.

Definition question_exclamation : SegmentationRule := {|
  name := "question_exclamation";
  pattern := RPlus cls_excl ⊙ RPlus Py_UNICODE_ISSPACE;
  is_boundary := true;
  priority := 40;
  description := "Question or exclamation mark";
|}.

(** The alternation is joined in the iteration order of the set. *)
Definition _compile_patterns : SynTagRusPatterns := {|
  rules := [sentence_end_capital; paragraph_end; question_exclamation];
  abbr_pattern :=
    RWordB ⊙ RAlts (RLit <$> elements ABBREVIATIONS) ⊙ RChr (ord ".");
  initials_pattern :=
    RWordB ⊙ RSet cls_upper ⊙ RChr (ord ".") ⊙ RStar Py_UNICODE_ISSPACE
    ⊙ ROpt (RSet cls_upper ⊙ RChr (ord ".") ⊙ RStar Py_UNICODE_ISSPACE)
    ⊙ RSet cls_upper ⊙ RPlus cls_lower ⊙ RWordB;
  sentence_end_pattern :=
    RPlus cls_end ⊙ RPlus Py_UNICODE_ISSPACE ⊙ RSet cls_opening;
|}.

(** [SynTagRusPatterns()] *)
Definition __init__ : SynTagRusPatterns := _compile_patterns.

(** ** The engine *)

(** A [for] loop over [xs] that threads the state [st] through [body]
    and stops at the first exception. *)
Fixpoint for_each {A S} (xs : list A) (body : A → S → option S) (st : S) : option S :=
  match xs with
  | [] => Some st
  | x :: rest => st' ← body x st; for_each rest body st'
  end.

(** [sorted(xs)] on integers *)
Definition sorted (xs : list Z) : list Z := merge_sort Z.le xs.

Definition higher_priority (r1 r2 : SegmentationRule) : Prop :=
  priority r2 ≤ priority r1.

#[export] Instance higher_priority_dec : RelDecision higher_priority :=
  λ r1 r2, decide (priority r2 ≤ priority r1).

(** [sorted(rules, key=lambda r: r.priority, reverse=True)] *)
Definition sorted_by_priority (rs : list SegmentationRule) : list SegmentationRule :=
  merge_sort higher_priority rs.

Section Engine.
Context {U : UnicodeData}.

Definition is_abbreviation (text : str) (pos : Z) : bool :=
  if (pos <=? 0) || (len text <=? pos) then false
  else
    existsb
      (λ look_back,
         let preceding := strip (str_lower (slice text (pos - look_back) pos)) in
         bool_decide (preceding ∈ ABBREVIATIONS))
      (range 1 (Z.min 11 (pos + 1))).

Definition is_initials_context (self : SynTagRusPatterns) (text : str) (pos : Z) : bool :=
  let start := Z.max 0 (pos - 20) in
  let end_ := Z.min (len text) (pos + 20) in
  let context := slice text start end_ in
  bool_decide (is_Some (search (initials_pattern self) context)).

Definition _is_blocked_boundary (self : SynTagRusPatterns) (text : str) (pos : Z)
  : option bool :=
  if is_abbreviation text (pos - 1) then Some true
  else if is_initials_context self text pos then Some true
  else if (0 <? pos) && (pos <? len text) then
    before ← py_index text (pos - 1);
    if ch_isdigit before then
      here ← py_index text pos;
      if ch_isdigit here then Some true else Some false
    else Some false
  else Some false.

(** The two nested loops of [find_sentence_boundaries]: the list
    [boundaries] before it is sorted and deduplicated. *)
Definition boundaries_loop (self : SynTagRusPatterns) (text : str) : option (list Z) :=
  for_each (sorted_by_priority (rules self))
    (λ rule boundaries,
       for_each (finditer (pattern rule) text)
         (λ m boundaries,
            let pos := Z.of_nat m.2 in
            if is_boundary rule then
              blocked ← _is_blocked_boundary self text pos;
              if negb blocked then Some (boundaries ++ [pos]) else Some boundaries
            else Some boundaries)
         boundaries)
    [].

(** [set(boundaries)] is iterated in the order of [elements]. *)
Definition find_sentence_boundaries (self : SynTagRusPatterns) (text : str)
  : option (list Z) :=
  boundaries ← boundaries_loop self text;
  Some (sorted (elements (list_to_set boundaries : gset Z))).

(** The same call when the set is iterated in any order [it]: the
    outcomes an interpreter with another hash order could give. *)
Definition find_sentence_boundaries_outcome (self : SynTagRusPatterns) (text : str)
  (res : option (list Z)) : Prop :=
  match boundaries_loop self text with
  | None => res = None
  | Some boundaries =>
    ∃ it, it ≡ₚ elements (list_to_set boundaries : gset Z) ∧ res = Some (sorted it)
  end.

Definition _split_by_boundaries (text : str) (boundaries : list Z) : list str :=
  let '(sentences, start) :=
    foldl (λ '(sentences, start) boundary,
             let sentence := strip (slice text start boundary) in
             (if bool_decide (sentence = []) then sentences else sentences ++ [sentence],
              boundary))
          ([], 0) boundaries in
  if start <? len text then
    let sentence := strip (slice_from text start) in
    if bool_decide (sentence = []) then sentences else sentences ++ [sentence]
  else sentences.

(** [max(a, b)]: the second argument wins only when it is greater. *)
Definition py_max (a b : Q) : Q := if Qlt_le_dec a b then b else a.

(** [bool(pattern.search(s))] *)
Definition found (r : regex) (s : str) : bool := bool_decide (is_Some (search r s)).

(** [sent and sent[0].islower()] *)
Definition starts_lower (sent : str) : bool :=
  match sent with
  | [] => false
  | _ => match py_index sent 0 with
         | Some c => ch_islower c
         | None => false
         end
  end.

(** The three tests of one pass of the scoring loop, on the running
    total. Floats are modelled by exact rationals: the penalties are
    0.1, 0.15 and 0.2 without rounding. *)
Definition penalise (self : SynTagRusPatterns) (penalties : Q) (sent : str) : Q :=
  let sent := strip sent in
  let penalties := if len sent <? 3 then (penalties + 0.1)%Q else penalties in
  let penalties := if starts_lower sent then (penalties + 0.15)%Q else penalties in
  let penalties :=
    if (len sent <? 10) && found (abbr_pattern self) sent
    then (penalties + 0.2)%Q else penalties in
  penalties.

Definition get_quality_score (self : SynTagRusPatterns) (text : str) (boundaries : list Z)
  : Q :=
  if bool_decide (boundaries = []) then 0.0%Q
  else
    let score := 1.0%Q in
    let penalties := 0%Q in
    let sentences := _split_by_boundaries text boundaries in
    let penalties := foldl (penalise self) penalties sentences in
    py_max 0.0%Q (score - penalties)%Q.

End Engine.

(** ** The module-level instance

    Objects live in a heap and are named by their address; the module
    global [_global_patterns] holds [None] or the address of an
    instance. *)
Record interp := {
  heap : list SynTagRusPatterns;
  _global_patterns : option nat;
}.

(** The state after the module is imported. *)
Definition module_loaded : interp := {| heap := []; _global_patterns := None |}.

(** [SynTagRusPatterns()]: a new object at a fresh address. *)
Definition construct (σ : interp) : nat * interp :=
  (length (heap σ),
   {| heap := heap σ ++ [__init__]; _global_patterns := _global_patterns σ |}).

Definition get_syntagrus_patterns (σ : interp) : nat * interp :=
  match _global_patterns σ with
  | None =>
    let '(obj, σ1) := construct σ in
    let σ2 := {| heap := heap σ1; _global_patterns := Some obj |} in
    (obj, σ2)
  | Some obj => (obj, σ)
  end.

(** [n] calls in a row: the addresses returned and the final state. *)
Fixpoint calls (n : nat) (σ : interp) : list nat * interp :=
  match n with
  | O => ([], σ)
  | S n' =>
    let '(obj, σ1) := get_syntagrus_patterns σ in
    let '(objs, σ2) := calls n' σ1 in
    (obj :: objs, σ2)
  end.

(** The excerpt of the Unicode database used to run the engine on the
    texts below: Basic Latin and the Cyrillic letters U+0400..U+045F.
    Code points outside are not in the excerpt (taken as caseless
    symbols). *)
Definition excerpt_lower (c : N) : N :=
  if in_range 65 90 c then (c + 32)%N
  else if in_range 1040 1071 c then (c + 32)%N
  else if in_range 1024 1039 c then (c + 80)%N
  else c.

#[export] Instance excerpt : UnicodeData := {|
  str_lower := fmap excerpt_lower;
  ch_isdigit c := in_range 48 57 c;
  ch_islower c := in_range 97 122 c || in_range 1072 1119 c;
  ch_isalnum c :=
    in_range 48 57 c || in_range 65 90 c || in_range 97 122 c || in_range 1024 1119 c;
|}.

(** ** Reference semantics and reference formulas *)

Section Reference.
Context {U : UnicodeData}.

(** What it means for [r] to match the characters [i..j) of [s],
    without any order among the alternatives. *)
Fixpoint denotes (r : regex) (s : str) (i j : nat) : Prop :=
  match r with
  | REps => j = i
  | RSet p => ∃ c, s !! i = Some c ∧ p c = true ∧ j = S i
  | RSeq r1 r2 => ∃ m, denotes r1 s i m ∧ denotes r2 s m j
  | RAlt r1 r2 => denotes r1 s i j ∨ denotes r2 s i j
  | RStar p =>
    (i ≤ j)%nat ∧ ∀ m, (i ≤ m < j)%nat → ∃ c, s !! m = Some c ∧ p c = true
  | RPlus p =>
    (i < j)%nat ∧ ∀ m, (i ≤ m < j)%nat → ∃ c, s !! m = Some c ∧ p c = true
  | RLook r' => j = i ∧ ∃ e, denotes r' s i e
  | RWordB => j = i ∧ word_boundary s i = true
  end.

(** Where an offset of the collected list comes from: a match of a
    boundary rule that the blocking evaluator let through. *)
Definition accepted (self : SynTagRusPatterns) (text : str) (b : Z) : Prop :=
  ∃ rule m, rule ∈ rules self ∧ is_boundary rule = true
    ∧ m ∈ finditer (pattern rule) text ∧ b = Z.of_nat m.2
    ∧ _is_blocked_boundary self text b = Some false.




End Reference.

(** The texts of the examples. *)
Definition text_year : str := u8 "Он родился в 1799 г. в Москве.".
Definition text_initials : str := u8 "А. С. Пушкин - великий русский поэт.".
Definition text_three : str := u8 "Первое. Второе. Третье.".
Definition text_decimal : str := u8 "Число равно 3.14 и больше нуля.".
Definition text_professor : str := u8 "Лекцию читал проф. Иванов из МГУ.".
Definition text_exclaim : str := u8 "Да! Нет? Ну.".

(** ** The collected list in closed form *)

Section Contribution.
Context {U : UnicodeData}.

(** What one match of one rule appends to [boundaries]. *)
Definition contribution (self : SynTagRusPatterns) (text : str)
  (rule : SegmentationRule) (m : nat * nat) : list Z :=
  if is_boundary rule then
    match _is_blocked_boundary self text (Z.of_nat m.2) with
    | Some false => [Z.of_nat m.2]
    | _ => []
    end
  else [].

End Contribution.

(** An instance whose alternation was joined in the iteration order
    [order] of the abbreviation set. *)
Definition compiled_in_order (order : list str) : SynTagRusPatterns := {|
  rules := rules _compile_patterns;
  abbr_pattern := RWordB ⊙ RAlts (RLit <$> order) ⊙ RChr (ord ".");
  initials_pattern := initials_pattern _compile_patterns;
  sentence_end_pattern := sentence_end_pattern _compile_patterns;
|}.

(** [piece] is a contiguous part of [text]. *)
Definition substring_of (piece text : str) : Prop :=
  ∃ before after, text = before ++ piece ++ after.

(** ** The partition helpers of the test suite

    [tests/razdel_original/partition.py]: a partition is a text cut
    into chunks, written on one line with the chunks separated by a
    bar. *)

(** [s.replace(old, new)] for a non-empty [old]: the occurrences are
    taken from the left and do not overlap; [skip] counts the
    characters of the occurrence still to pass over. *)
Fixpoint replace_go (old new : str) (skip : nat) (s : str) : str :=
  match s with
  | [] => []
  | c :: r =>
    match skip with
    | S k => replace_go old new k r
    | O =>
      if bool_decide (take (length old) s = old)
      then new ++ replace_go old new (length old - 1) r
      else c :: replace_go old new 0 r
    end
  end.

(** [s.replace(old, new)]; an empty [old] matches before every
    character and at the end. *)
Definition py_replace (old new : str) (s : str) : str :=
  match old with
  | [] => new ++ (s ≫= λ c, c :: new)
  | _ => replace_go old new 0 s
  end.

(** The pieces of [s.split(sep)] for a non-empty [sep]; [cur] is the
    piece being read. *)
Fixpoint split_go (sep : str) (skip : nat) (cur : str) (s : str) : list str :=
  match s with
  | [] => [cur]
  | c :: r =>
    match skip with
    | S k => split_go sep k cur r
    | O =>
      if bool_decide (take (length sep) s = sep)
      then cur :: split_go sep (length sep - 1) [] r
      else split_go sep 0 (cur ++ [c]) r
    end
  end.

(** [s.split(sep)]; [None] is the [ValueError] of an empty separator. *)
Definition py_split (s sep : str) : option (list str) :=
  match sep with
  | [] => None
  | _ => Some (split_go sep 0 [] s)
  end.

(** [sep.join(parts)] *)
Fixpoint py_join (sep : str) (parts : list str) : str :=
  match parts with
  | [] => []
  | [x] => x
  | x :: rest => x ++ sep ++ py_join sep rest
  end.

(** [s * n]: nothing for a negative [n]. *)
Definition py_repeat (s : str) (n : Z) : str := mjoin (replicate (Z.to_nat n) s).

Module PartitionPy.

(** Modelled from the spec: [Substring] of [mawo_razdel] is not among
    the sources; the data model gives a piece of text with its
    [start, stop) offsets, and the helpers build it as
    [Substring(start, stop, text)] and read these three attributes. *)
Record Substring := {
  start : Z;
  stop : Z;
  text : str;
}.

Definition FILL : str := u8 " ".

(** The end-of-string anchor without [MULTILINE]: at the end, or
    before a newline that ends the string. *)
Definition at_dollar (s : str) (j : nat) : option nat :=
  if (j =? length s)%nat || ((S j =? length s)%nat && bool_decide (s !! j = Some 10%N))
  then Some j else None.

(** [FILL_PATTERN.match(chunk)] for the pattern of a whole string of
    whitespace: the greedy whitespace run from offset 0, given back
    one character at a time until the end anchor holds. *)
Definition FILL_PATTERN_match (chunk : str) : option nat :=
  greedy (at_dollar chunk) 0 0 (run Py_UNICODE_ISSPACE chunk 0).

Record Partition := {
  chunks : list str;
}.

(** [is_fill(chunk)] as a truth value *)
Definition is_fill (chunk : str) : bool :=
  bool_decide (is_Some (FILL_PATTERN_match chunk)).

(** The [text] property *)
Definition partition_text (p : Partition) : str := mjoin (chunks p).

(** The loop of the [substrings] property from the offset [start0]. *)
Fixpoint substrings_from (start0 : Z) (cs : list str) : list Substring :=
  match cs with
  | [] => []
  | chunk :: rest =>
    let stop0 := start0 + len chunk in
    (if negb (is_fill chunk)
     then [{| start := start0; stop := stop0; text := chunk |}] else [])
    ++ substrings_from stop0 rest
  end.

Definition substrings (p : Partition) : list Substring :=
  substrings_from 0 (chunks p).

(** The loop of [substring_chunks] at position [index] of the
    enumeration. *)
Fixpoint substring_chunks_from (fill : str) (index : nat) (previous : Z)
    (subs : list Substring) : list str :=
  match subs with
  | [] => []
  | substring :: rest =>
    (if (0 <? index)%nat then
       let size := start substring - previous in
       if negb (size =? 0) then [py_repeat fill size] else []
     else [])
    ++ text substring :: substring_chunks_from fill (S index) (stop substring) rest
  end.

Definition substring_chunks (subs : list Substring) (fill : str) : list str :=
  substring_chunks_from fill 0 0 subs.

Definition from_substrings (subs : list Substring) : Partition :=
  {| chunks := substring_chunks subs FILL |}.

Definition SEP : str := u8 "|".

Definition ESCAPE : list (str * str) :=
  [(SEP, [92; 124]%N); ([10]%N, [92; 110]%N)].

Definition escape_chunk (chunk : str) : str :=
  foldl (λ chunk '(source, target), py_replace source target chunk) chunk ESCAPE.

Definition parse_partition (line : str) : option Partition :=
  cs ← py_split line SEP; Some {| chunks := cs |}.

Definition parse_partitions (lines : list str) : option (list Partition) :=
  mapM parse_partition lines.

Definition format_partition (p : Partition) : str :=
  py_join SEP (escape_chunk <$> chunks p).

Definition format_partitions (ps : list Partition) : list str :=
  format_partition <$> ps.

Definition update_partition (p : Partition) (segment : str → list Substring)
  : Partition :=
  from_substrings (segment (partition_text p)).

Definition update_partitions (ps : list Partition) (segment : str → list Substring)
  : list Partition :=
  (λ p, update_partition p segment) <$> ps.

(** The substrings a segmenter can return: each as long as its text,
    none blank, in order and without overlap. *)
Fixpoint well_formed (previous : Z) (subs : list Substring) : Prop :=
  match subs with
  | [] => True
  | s :: rest =>
    previous ≤ start s ∧ stop s = start s + len (text s)
    ∧ is_fill (text s) = false ∧ well_formed (stop s) rest
  end.

Definition shift (d : Z) (s : Substring) : Substring :=
  {| start := start s - d; stop := stop s - d; text := text s |}.

End PartitionPy.

(** * Properties *)

(** ** Sanity checks of the embedding *)

Example u8_example : u8 "г. Я" = [1075; 46; 32; 1071]%N.
Proof. reflexivity. Qed.

Example ord_examples :
  (ord "А", ord "Я", ord "Ё", ord "а", ord "я", ord "ё", ord "«")
  = (1040, 1071, 1025, 1072, 1103, 1105, 171)%N.
Proof. reflexivity. Qed.

Example slice_examples :
  slice [1;2;3;4;5]%N 1 3 = [2;3]%N ∧ slice [1;2;3;4;5]%N (-2) 9 = [4;5]%N
  ∧ slice [1;2;3;4;5]%N 4 2 = [] ∧ slice_from [1;2;3]%N (-1) = [3]%N
  ∧ py_index [1;2;3]%N (-1) = Some 3%N ∧ py_index [1;2;3]%N 3 = None.
Proof. repeat split. Qed.

Example strip_example : strip (u8 "  г. ") = u8 "г.".
Proof. reflexivity. Qed.

Example rules_order :
  name <$> sorted_by_priority (rules __init__)
  = ["sentence_end_capital"; "paragraph_end"; "question_exclamation"].
Proof. reflexivity. Qed.

(** ** The matcher is sound for the reference semantics *)

Lemma run_from_spec p s m :
  (m < run_from p s)%nat → ∃ c, s !! m = Some c ∧ p c = true.
Proof.
  revert m. induction s as [|c s IH]; intros m Hm; simpl in *; [lia|].
  destruct (p c) eqn:Hp; [|lia].
  destruct m as [|m]; [eauto|]. apply IH. lia.
Qed.

Lemma run_spec p s i m :
  (i ≤ m < i + run p s i)%nat → ∃ c, s !! m = Some c ∧ p c = true.
Proof.
  intros Hm. unfold run in Hm.
  destruct (run_from_spec p (drop i s) (m - i)) as (c & Hc & Hp); [lia|].
  exists c. split; [|done].
  rewrite lookup_drop in Hc. by replace (i + (m - i))%nat with m in Hc by lia.
Qed.

Lemma greedy_spec k i least n e :
  greedy k i least n = Some e →
  ∃ m, (least ≤ m ≤ n)%nat ∧ k (i + m)%nat = Some e.
Proof.
  induction n as [|n IH]; simpl.
  - destruct least; simpl; [|done].
    destruct (k (i + 0)%nat) eqn:Hk; [|done].
    intros [= <-]. exists 0%nat. split; [lia|done].
  - destruct (S n <? least)%nat eqn:Hlt; [done|].
    apply Nat.ltb_ge in Hlt.
    destruct (k (i + S n)%nat) eqn:Hk.
    + intros [= <-]. exists (S n). split; [lia|done].
    + intros H. destruct (IH H) as (m & Hm & Hkm). exists m. split; [lia|done].
Qed.

Lemma run_from_max p s n :
  (∀ m, (m < n)%nat → ∃ c, s !! m = Some c ∧ p c = true) → (n ≤ run_from p s)%nat.
Proof.
  revert s. induction n as [|n IH]; intros s Hn; [lia|].
  destruct (Hn 0%nat) as (c & Hc & Hp); [lia|].
  destruct s as [|c' s]; [done|]. simpl in Hc. injection Hc as ->.
  simpl. rewrite Hp. apply le_n_S, IH.
  intros m Hm. apply (Hn (S m)). lia.
Qed.

Lemma run_max p s i j :
  (∀ m, (i ≤ m < j)%nat → ∃ c, s !! m = Some c ∧ p c = true) →
  (j - i ≤ run p s i)%nat.
Proof.
  intros H. apply run_from_max. intros m Hm.
  rewrite lookup_drop. apply H. lia.
Qed.

Lemma greedy_none k i least n :
  greedy k i least n = None →
  ∀ m, (least ≤ m ≤ n)%nat → k (i + m)%nat = None.
Proof.
  induction n as [|n IH]; simpl.
  - destruct least; simpl; [|intros _ m Hm; lia].
    destruct (k (i + 0)%nat) eqn:Hk; [done|].
    intros _ m Hm. by replace m with 0%nat by lia.
  - destruct (S n <? least)%nat eqn:Hlt.
    { apply Nat.ltb_lt in Hlt. intros _ m Hm. lia. }
    destruct (k (i + S n)%nat) eqn:Hk; [done|].
    intros H m Hm. destruct (decide (m = S n)) as [->|]; [done|].
    apply (IH H). lia.
Qed.

Section Soundness.
Context {U : UnicodeData}.

Lemma rmatch_sound r s k i e :
  rmatch r s k i = Some e → ∃ j, denotes r s i j ∧ k j = Some e.
Proof.
  revert k i e. induction r as [|p|r1 IH1 r2 IH2|r1 IH1 r2 IH2|p|p|r' IH|];
    intros k i e; simpl.
  - intros H. by exists i.
  - destruct (s !! i) as [c|] eqn:Hc; [|done].
    destruct (p c) eqn:Hp; [|done].
    intros H. exists (S i). split; [|done]. by exists c.
  - intros H. destruct (IH1 _ _ _ H) as (m & Hm & H2).
    destruct (IH2 _ _ _ H2) as (j & Hj & Hk). exists j. split; [|done]. by exists m.
  - destruct (rmatch r1 s k i) as [e1|] eqn:H1.
    + intros [= <-]. destruct (IH1 _ _ _ H1) as (j & Hj & Hk). exists j. auto.
    + intros H2. destruct (IH2 _ _ _ H2) as (j & Hj & Hk). exists j. auto.
  - intros H. destruct (greedy_spec _ _ _ _ _ H) as (m & Hm & Hk).
    exists (i + m)%nat. split; [|done]. split; [lia|].
    intros m' Hm'. apply (run_spec p s i). lia.
  - intros H. destruct (greedy_spec _ _ _ _ _ H) as (m & Hm & Hk).
    exists (i + m)%nat. split; [|done]. split; [lia|].
    intros m' Hm'. apply (run_spec p s i). lia.
  - destruct (rmatch r' s Some i) as [e'|] eqn:H'; [|done].
    intros H. exists i. split; [|done]. split; [done|].
    destruct (IH _ _ _ H') as (j & Hj & _). by exists j.
  - destruct (word_boundary s i) eqn:Hb; [|done].
    intros H. by exists i.
Qed.

Lemma match_at_sound r s i e : match_at r s i = Some e → denotes r s i e.
Proof.
  intros H. destruct (rmatch_sound _ _ _ _ _ H) as (j & Hj & [= <-]). done.
Qed.

Lemma scan_sound r s starts next m :
  m ∈ scan r s starts next → match_at r s m.1 = Some m.2.
Proof.
  revert next. induction starts as [|i rest IH]; intros next; simpl.
  - by intros ?%elem_of_nil.
  - destruct (i <? next)%nat; [apply IH|].
    destruct (match_at r s i) as [e|] eqn:He; [|apply IH].
    intros [->|Hin]%elem_of_cons; [done|]. by eapply IH.
Qed.

Lemma finditer_sound r s m : m ∈ finditer r s → denotes r s m.1 m.2.
Proof. intros H. apply match_at_sound. by eapply scan_sound. Qed.

Lemma rmatch_complete r s k i :
  rmatch r s k i = None → ∀ j, denotes r s i j → k j = None.
Proof.
  revert k i. induction r as [|p|r1 IH1 r2 IH2|r1 IH1 r2 IH2|p|p|r' IH|];
    intros k i; simpl.
  - by intros H j ->.
  - intros H j (c & Hc & Hp & ->). by rewrite Hc, Hp in H.
  - intros H j (m & Hm & Hj). apply (IH2 k m); [|done]. by apply (IH1 _ i).
  - destruct (rmatch r1 s k i) eqn:H1; [done|].
    intros H2 j [Hj|Hj]; [by apply (IH1 _ i)|by apply (IH2 _ i)].
  - intros H j [Hij Hall]. replace j with (i + (j - i))%nat by lia.
    apply (greedy_none _ _ _ _ H). split; [lia|]. by apply run_max.
  - intros H j [Hij Hall]. replace j with (i + (j - i))%nat by lia.
    apply (greedy_none _ _ _ _ H). split; [lia|]. by apply run_max.
  - destruct (rmatch r' s Some i) eqn:H'.
    + by intros H j [-> _].
    + intros _ j [_ [e He]]. by specialize (IH _ _ H' e He).
  - destruct (word_boundary s i) eqn:Hb; [by intros H j [-> _]|].
    by intros _ j [_ ?].
Qed.

Lemma match_at_denotes r s i :
  is_Some (match_at r s i) ↔ ∃ j, denotes r s i j.
Proof.
  split.
  - intros [e He]. exists e. by apply match_at_sound.
  - intros [j Hj]. destruct (match_at r s i) eqn:Hm; [done|].
    by specialize (rmatch_complete _ _ _ _ Hm j Hj).
Qed.

Lemma scan_nil r s starts next :
  scan r s starts next = [] ↔
  ∀ i, i ∈ starts → (next ≤ i)%nat → match_at r s i = None.
Proof.
  revert next. induction starts as [|i rest IH]; intros next; simpl.
  - split; [by intros _ i ?%elem_of_nil|done].
  - destruct (i <? next)%nat eqn:Hlt.
    + apply Nat.ltb_lt in Hlt. rewrite IH. split.
      * intros H i' [->|Hin]%elem_of_cons ?; [lia|auto].
      * intros H i' Hin. apply H. by right.
    + apply Nat.ltb_ge in Hlt. destruct (match_at r s i) eqn:Hm.
      * split; [done|]. intros H. by rewrite (H i) in Hm by (by left || lia).
      * rewrite IH. split.
        -- intros H i' [->|Hin]%elem_of_cons ?; [done|auto].
        -- intros H i' Hin. apply H. by right.
Qed.

(** [bool(pattern.search(s))] says whether the pattern has a match at
    all, whatever the order of its alternatives. *)
Lemma found_denotes r s :
  found r s = true ↔ ∃ i j, (i ≤ length s)%nat ∧ denotes r s i j.
Proof.
  unfold found, search, finditer. rewrite bool_decide_eq_true. split.
  - intros [[i e] Hh]. apply head_Some_elem_of in Hh.
    exists i, e. split.
    + clear -Hh. assert (∀ starts next m, m ∈ scan r s starts next → m.1 ∈ starts)
        as Hin.
      { induction starts as [|x rest IH]; intros next m; simpl;
          [by intros ?%elem_of_nil|].
        destruct (x <? next)%nat; [intros ?; right; eauto|].
        destruct (match_at r s x).
        - intros [->|?]%elem_of_cons; [by left|right; eauto].
        - intros ?; right; eauto. }
      apply Hin, elem_of_seq in Hh. simpl in Hh. lia.
    + by apply (finditer_sound r s (i, e)), Hh.
  - intros (i & j & Hi & Hj).
    destruct (scan r s (seq 0 (S (length s))) 0) eqn:Hs; [|done].
    rewrite scan_nil in Hs.
    assert (Hm : is_Some (match_at r s i)) by (apply match_at_denotes; eauto).
    rewrite (Hs i) in Hm; [by destruct Hm| |lia].
    apply elem_of_seq. lia.
Qed.

End Soundness.

(** ** Loops, indexing and sorting *)

Lemma for_each_inv {A S} (P : S → Prop) (xs : list A) body st st' :
  P st →
  (∀ x s s', x ∈ xs → P s → body x s = Some s' → P s') →
  for_each xs body st = Some st' → P st'.
Proof.
  revert st. induction xs as [|x xs IH]; intros st Hst Hbody; simpl.
  - by intros [= <-].
  - destruct (body x st) as [s1|] eqn:Hx; simpl; [|done].
    apply IH.
    + eapply Hbody; [left|done..].
    + intros y s s' Hy. apply Hbody. by right.
Qed.

Lemma for_each_total {A S} (xs : list A) (body : A → S → option S) st :
  (∀ x s, x ∈ xs → is_Some (body x s)) → is_Some (for_each xs body st).
Proof.
  revert st. induction xs as [|x xs IH]; intros st Hbody; simpl; [done|].
  destruct (Hbody x st) as [s1 ->]; [left|]. simpl.
  apply IH. intros y s Hy. apply Hbody. by right.
Qed.

Lemma py_index_in_range {A} (s : list A) i :
  0 ≤ i < len s → py_index s i = s !! Z.to_nat i ∧ is_Some (s !! Z.to_nat i).
Proof.
  intros Hi. unfold py_index, len in *.
  rewrite (proj2 (Z.leb_le 0 i)), (proj2 (Z.ltb_lt i _)) by lia. simpl.
  split; [done|]. apply lookup_lt_is_Some. lia.
Qed.

Lemma sorted_strictly_ascending (s : gset Z) it :
  it ≡ₚ elements s → StronglySorted Z.lt (sorted it).
Proof.
  intros Hit.
  assert (Hnd : NoDup (sorted it)).
  { unfold sorted. rewrite merge_sort_Permutation, Hit. apply NoDup_elements. }
  assert (Hs : StronglySorted Z.le (sorted it)).
  { apply StronglySorted_merge_sort; apply _. }
  induction Hs as [|x l Hl IH Hx]; [constructor|].
  apply NoDup_cons in Hnd as [Hni Hnd]. constructor; [auto|].
  rewrite Forall_forall in Hx |- *. intros y Hy.
  specialize (Hx y Hy). assert (x ≠ y) by (by intros ->). lia.
Qed.

Lemma sorted_order_irrelevant (it1 it2 : list Z) :
  it1 ≡ₚ it2 → sorted it1 = sorted it2.
Proof.
  intros H. apply (Sorted_unique Z.le).
  - apply Sorted_merge_sort; apply _.
  - apply Sorted_merge_sort; apply _.
  - unfold sorted. by rewrite !merge_sort_Permutation.
Qed.

Section Scanner.
Context {U : UnicodeData}.

Lemma _is_blocked_boundary_total self text pos :
  is_Some (_is_blocked_boundary self text pos).
Proof.
  unfold _is_blocked_boundary.
  destruct (is_abbreviation text (pos - 1)); [done|].
  destruct (is_initials_context self text pos); [done|].
  destruct ((0 <? pos) && (pos <? len text)) eqn:Hr; [|done].
  apply andb_prop in Hr as [H0%Z.ltb_lt Hl%Z.ltb_lt].
  destruct (py_index_in_range text (pos - 1)) as [-> [a ->]]; [lia|]. simpl.
  destruct (ch_isdigit a); [|done].
  destruct (py_index_in_range text pos) as [-> [b ->]]; [lia|]. simpl.
  by destruct (ch_isdigit b).
Qed.

Lemma boundaries_loop_total self text : is_Some (boundaries_loop self text).
Proof.
  apply for_each_total. intros rule bs _.
  apply for_each_total. intros m bs' _. cbv zeta.
  destruct (is_boundary rule); [|done].
  destruct (_is_blocked_boundary_total self text (Z.of_nat m.2)) as [b ->]. simpl.
  by destruct b.
Qed.

Lemma boundaries_loop_accepted self text bs :
  boundaries_loop self text = Some bs → Forall (accepted self text) bs.
Proof.
  apply (for_each_inv (Forall (accepted self text))); [constructor|].
  intros rule s s' Hrule Hs.
  apply (for_each_inv (Forall (accepted self text))); [done|].
  intros m acc acc' Hm Hacc. cbv zeta.
  destruct (is_boundary rule) eqn:Hb; [|by intros [= <-]].
  destruct (_is_blocked_boundary self text (Z.of_nat m.2)) as [[]|] eqn:Hblk; simpl;
    [by intros [= <-]| |done].
  intros [= <-]. apply Forall_app. split; [done|].
  constructor; [|constructor]. exists rule, m.
  unfold sorted_by_priority in Hrule. rewrite merge_sort_Permutation in Hrule.
  done.
Qed.

Lemma find_sentence_boundaries_accepted self text bs b :
  find_sentence_boundaries self text = Some bs → b ∈ bs → accepted self text b.
Proof.
  unfold find_sentence_boundaries.
  destruct (boundaries_loop self text) as [l|] eqn:Hl; simpl; [|done].
  intros [= <-] Hb. unfold sorted in Hb. rewrite merge_sort_Permutation in Hb.
  apply elem_of_elements, elem_of_list_to_set in Hb.
  apply boundaries_loop_accepted in Hl. rewrite Forall_forall in Hl. auto.
Qed.

End Scanner.

(** ** Every rule of the table ends its match in whitespace *)

Lemma cls_nl_space c : cls_nl c = true → Py_UNICODE_ISSPACE c = true.
Proof. unfold cls_nl. by intros ->%N.eqb_eq. Qed.

Lemma space_not_end c : Py_UNICODE_ISSPACE c = true → cls_end c = false.
Proof.
  intros Hs. destruct (cls_end c) eqn:He; [|done]. unfold cls_end in He.
  apply orb_prop in He as [He|He]; [apply orb_prop in He as [He|He]|];
    apply N.eqb_eq in He; subst c; vm_compute in Hs; done.
Qed.

Section RuleTable.
Context {U : UnicodeData}.

Lemma rule_match_ends_in_space rule text i e :
  rule ∈ rules __init__ → denotes (pattern rule) text i e →
  (i + 2 ≤ e)%nat ∧ ∃ c, text !! (e - 1)%nat = Some c ∧ Py_UNICODE_ISSPACE c = true.
Proof.
  simpl. rewrite !elem_of_cons, elem_of_nil.
  intros [->|[->|[->|[]]]]; simpl.
  - intros (m1 & [H1 _] & m2 & [H2 Hsp] & -> & _).
    split; [lia|]. apply Hsp. lia.
  - intros (m1 & [H1 _] & m2 & [H2 _] & m3 & (c1 & _ & _ & ->) & m4 & [H4 _]
            & c & Hc & Hnl & ->).
    split; [lia|]. exists c. simpl. rewrite Nat.sub_0_r. auto using cls_nl_space.
  - intros (m1 & [H1 _] & H2 & Hsp).
    split; [lia|]. apply Hsp. lia.
Qed.

End RuleTable.

(** ** The abbreviation check at the offset the evaluator passes

    The evaluator asks [is_abbreviation] about [match.end() - 1], the
    last whitespace of the match. The substrings tried end one
    character before: in the punctuation or in the whitespace. *)

Lemma slice_in_range {A} (s : list A) a b :
  0 ≤ a ≤ b → b ≤ len s →
  slice s a b = take (Z.to_nat (b - a)) (drop (Z.to_nat a) s).
Proof.
  intros Hab Hb. unfold slice, adjust_index.
  rewrite (proj2 (Z.ltb_ge a 0)), (proj2 (Z.ltb_ge b 0)) by lia.
  by rewrite !Z.min_l by lia.
Qed.

Lemma lstrip_spaces s : Forall (λ c, Py_UNICODE_ISSPACE c = true) s → lstrip s = [].
Proof. induction 1 as [|c s Hc _ IH]; simpl; [done|]. by rewrite Hc. Qed.

Lemma lstrip_stops y p sp :
  Py_UNICODE_ISSPACE p = false → ∃ y', lstrip (y ++ p :: sp) = y' ++ p :: sp.
Proof.
  intros Hp. induction y as [|x y IH]; simpl.
  - rewrite Hp. by exists [].
  - destruct (Py_UNICODE_ISSPACE x); [done|]. by exists (x :: y).
Qed.

Lemma strip_spaces s : Forall (λ c, Py_UNICODE_ISSPACE c = true) s → strip s = [].
Proof. intros H. unfold strip. by rewrite (lstrip_spaces s H). Qed.

Lemma strip_ends_in y p sp :
  Py_UNICODE_ISSPACE p = false → Forall (λ c, Py_UNICODE_ISSPACE c = true) sp →
  ∃ y', strip (y ++ p :: sp) = y' ++ [p].
Proof.
  intros Hp Hsp. unfold strip, rstrip.
  destruct (lstrip_stops y p sp Hp) as [y' ->]. exists y'.
  rewrite reverse_app, reverse_cons, <- !(assoc_L (++)).
  destruct (lstrip_stops (reverse sp) p (reverse y') Hp) as [z Hz].
  assert (Hl : lstrip (reverse sp ++ [p] ++ reverse y') = p :: reverse y').
  { clear Hz. assert (Hr : Forall (λ c, Py_UNICODE_ISSPACE c = true) (reverse sp))
      by (by apply Forall_reverse).
    induction Hr as [|c l Hc _ IH]; simpl; [by rewrite Hp|by rewrite Hc]. }
  rewrite Hl, reverse_cons, reverse_involutive. done.
Qed.

Lemma end_not_space c : cls_end c = true → Py_UNICODE_ISSPACE c = false.
Proof.
  intros He. destruct (Py_UNICODE_ISSPACE c) eqn:Hs; [|done].
  by rewrite (space_not_end c Hs) in He.
Qed.

(** No abbreviation is empty and none ends in [.], [!] or [?]. *)
Lemma abbreviation_last a :
  a ∈ ABBREVIATIONS → ∃ c, last a = Some c ∧ cls_end c = false.
Proof.
  unfold ABBREVIATIONS. rewrite elem_of_list_to_set. revert a.
  apply Forall_forall.
  apply (Forall_impl
    (λ a, match last a with Some c => negb (cls_end c) | None => false end = true)).
  - apply Forall_forall. intros a Ha.
    assert (Hall : forallb (λ a, match last a with
                                 | Some c => negb (cls_end c)
                                 | None => false
                                 end) (u8 <$> ABBREVIATIONS_display) = true)
      by (vm_compute; reflexivity).
    rewrite forallb_forall in Hall. apply Hall. by apply list_elem_of_In.
  - intros a Ha. destruct (last a) as [c|]; [|done].
    exists c. split; [done|]. by apply negb_true_iff.
Qed.

Section AbbreviationCheck.
Context {U : UnicodeData}.

(** Lower-casing leaves a trailing sentence-end mark or whitespace
    character in place. *)
Hypothesis lower_snoc : ∀ s c,
  cls_end c = true ∨ Py_UNICODE_ISSPACE c = true →
  str_lower (s ++ [c]) = str_lower s ++ [c].
Hypothesis lower_nil : str_lower [] = [].

Lemma lower_tail pre t :
  Forall (λ c, cls_end c = true ∨ Py_UNICODE_ISSPACE c = true) t →
  str_lower (pre ++ t) = str_lower pre ++ t.
Proof.
  induction t as [|c t IH] using rev_ind; intros Ht.
  - by rewrite !app_nil_r.
  - apply Forall_app in Ht as [Ht Hc]. apply Forall_inv in Hc.
    rewrite !(assoc_L (++)), lower_snoc by exact Hc. by rewrite IH.
Qed.

(** The shape of a match of any rule of the table: marks, then
    whitespace, with at least one character of each. *)
Lemma rule_match_shape rule text i e :
  rule ∈ rules __init__ → denotes (pattern rule) text i e →
  ∃ m1, (i < m1 < e)%nat
    ∧ (∀ m, (i ≤ m < m1)%nat → ∃ c, text !! m = Some c ∧ cls_end c = true)
    ∧ (∀ m, (m1 ≤ m < e)%nat → ∃ c, text !! m = Some c ∧ Py_UNICODE_ISSPACE c = true).
Proof.
  simpl. rewrite !elem_of_cons, elem_of_nil.
  intros [->|[->|[->|[]]]]; simpl.
  - intros (m1 & [H1 Hend] & m2 & [H2 Hsp] & -> & _).
    exists m1. split_and!; [lia..|done|done].
  - intros (m1 & [H1 Hend] & m2 & [H2 Hsp2] & m3 & (c1 & Hc1 & Hn1 & ->) & m4
            & [H4 Hsp4] & c & Hc & Hnl & ->).
    exists m1. split_and!; [lia..|done|].
    intros m Hm.
    destruct (decide (m < m2)%nat); [apply Hsp2; lia|].
    destruct (decide (m = m2)) as [->|]; [eauto using cls_nl_space|].
    destruct (decide (m < m4)%nat); [apply Hsp4; lia|].
    replace m with m4 by lia. eauto using cls_nl_space.
  - intros (m1 & [H1 Hexcl] & H2 & Hsp).
    exists m1. split_and!; [lia..| |done].
    intros m Hm. destruct (Hexcl m Hm) as (c & Hc & Hx). exists c. split; [done|].
    unfold cls_end. unfold cls_excl in Hx.
    apply orb_prop in Hx as [->| ->]; by rewrite ?orb_true_r.
Qed.

(** For every text and every match of a rule of the table, the
    abbreviation check the evaluator makes answers [False]. *)
Theorem abbreviation_check_never_fires rule text m :
  rule ∈ rules __init__ → m ∈ finditer (pattern rule) text →
  is_abbreviation text (Z.of_nat m.2 - 1) = false.
Proof.
  destruct m as [i e]. simpl. intros Hrule Hm%finditer_sound. simpl in Hm.
  destruct (rule_match_shape _ _ _ _ Hrule Hm) as (m1 & Hm1 & Hend & Hsp).
  unfold is_abbreviation.
  destruct ((Z.of_nat e - 1 <=? 0) || (len text <=? Z.of_nat e - 1)) eqn:Hg; [done|].
  apply orb_false_elim in Hg as [Hpos%Z.leb_gt Hlen%Z.leb_gt].
  destruct (existsb _ _) eqn:Hex; [|done]. exfalso.
  apply existsb_exists in Hex as (lb & Hlb & Hin).
  apply list_elem_of_In in Hlb. unfold range in Hlb. apply elem_of_seqZ in Hlb.
  apply bool_decide_eq_true in Hin.
  rewrite slice_in_range in Hin by lia.
  replace (Z.of_nat e - 1 - (Z.of_nat e - 1 - lb)) with lb in Hin by lia.
  set (a := Z.to_nat (Z.of_nat e - 1 - lb)) in *.
  set (n := Z.to_nat lb) in *.
  assert (Han : (a + n = e - 1)%nat) by lia.
  assert (Hsub : ∀ k, (k < n)%nat → take n (drop a text) !! k = text !! (a + k)%nat).
  { intros k Hk. by rewrite lookup_take_lt, lookup_drop by done. }
  assert (Hlensub : length (take n (drop a text)) = n).
  { rewrite length_take, length_drop. unfold len in Hlen. lia. }
  destruct (abbreviation_last _ Hin) as (c & Hlast & Hc).
  destruct (decide (m1 ≤ a)%nat) as [Hcase|Hcase].
  - assert (Hall : Forall (λ c, Py_UNICODE_ISSPACE c = true) (take n (drop a text))).
    { apply Forall_lookup. intros k x Hx.
      assert (Hk : (k < n)%nat) by (rewrite <- Hlensub; by eapply lookup_lt_Some).
      rewrite Hsub in Hx by done.
      destruct (Hsp (a + k)%nat) as (x' & Hx' & Hs); [lia|]. congruence. }
    rewrite <- (app_nil_l (take n (drop a text))), lower_tail, lower_nil in Hlast.
    + simpl in Hlast. by rewrite strip_spaces in Hlast.
    + eapply Forall_impl; [exact Hall|]. auto.
  - set (k := (m1 - 1 - a)%nat).
    destruct (Hend (m1 - 1)%nat) as (p & Hp & Hpe); [lia|].
    assert (Hk : take n (drop a text) !! k = Some p).
    { rewrite Hsub by (unfold k; lia). by replace (a + k)%nat with (m1 - 1)%nat by (unfold k; lia). }
    assert (Htail : Forall (λ c, Py_UNICODE_ISSPACE c = true)
                      (drop (S k) (take n (drop a text)))).
    { apply Forall_lookup. intros j x Hx. rewrite lookup_drop in Hx.
      assert (Hj : (S k + j < n)%nat) by (rewrite <- Hlensub; by eapply lookup_lt_Some).
      rewrite Hsub in Hx by done.
      destruct (Hsp (a + (S k + j))%nat) as (x' & Hx' & Hs); [unfold k; lia|]. congruence. }
    rewrite <- (take_drop_middle _ _ _ Hk) in Hlast.
    rewrite lower_tail in Hlast.
    + destruct (strip_ends_in (str_lower (take k (take n (drop a text)))) p _
                  (end_not_space p Hpe) Htail) as [y' Hy].
      rewrite Hy, last_snoc in Hlast. injection Hlast as ->. congruence.
    + constructor; [by left|]. eapply Forall_impl; [exact Htail|]. auto.
Qed.

End AbbreviationCheck.

Lemma space_code c :
  Py_UNICODE_ISSPACE c = true → (c < 65 ∨ 90 < c < 1024 ∨ 1071 < c)%N.
Proof.
  unfold Py_UNICODE_ISSPACE. intros Hc.
  repeat (apply orb_prop in Hc as [Hc|Hc]);
    repeat (apply andb_prop in Hc as [Hc ?]);
    repeat match goal with
           | H : (_ <=? _)%N = true |- _ => apply N.leb_le in H
           | H : (_ =? _)%N = true |- _ => apply N.eqb_eq in H
           end; lia.
Qed.

Lemma excerpt_lower_space c : Py_UNICODE_ISSPACE c = true → excerpt_lower c = c.
Proof.
  intros Hc%space_code. unfold excerpt_lower, in_range.
  repeat case_match; try done;
    repeat match goal with
           | H : _ && _ = true |- _ => apply andb_prop in H as [?%N.leb_le ?%N.leb_le]
           end; lia.
Qed.

(** The excerpt meets the two conditions on lower-casing. *)
Lemma abbreviation_check_never_fires_excerpt rule text m :
  rule ∈ rules __init__ → m ∈ finditer (U:=excerpt) (pattern rule) text →
  is_abbreviation (U:=excerpt) text (Z.of_nat m.2 - 1) = false.
Proof.
  apply (abbreviation_check_never_fires (U:=excerpt)); [|done].
  intros s c Hc. simpl. rewrite fmap_app. f_equal. simpl. f_equal.
  destruct Hc as [Hc|Hc]; [|by apply excerpt_lower_space].
  unfold cls_end in Hc.
  apply orb_prop in Hc as [Hc|Hc]; [apply orb_prop in Hc as [Hc|Hc]|];
    apply N.eqb_eq in Hc; by subst c.
Qed.

(** ** The boundary scanner *)

(** C4: for every input string [find_sentence_boundaries] raises no
    exception and returns a strictly ascending, hence duplicate-free,
    list of offsets; on the empty string it returns the empty list. *)
Theorem find_sentence_boundaries_total_ascending {U : UnicodeData} self text :
  (∃ bs, find_sentence_boundaries self text = Some bs
         ∧ StronglySorted Z.lt bs ∧ NoDup bs)
  ∧ find_sentence_boundaries __init__ [] = Some [].
Proof.
  split; [|vm_compute; reflexivity].
  unfold find_sentence_boundaries.
  destruct (boundaries_loop_total self text) as [l ->]. simpl.
  eexists. split; [done|]. split.
  - by apply (sorted_strictly_ascending (list_to_set l)).
  - unfold sorted. rewrite merge_sort_Permutation. apply NoDup_elements.
Qed.

(** C9: every returned offset [b] has [0 < b <= len(text)] and the
    character at [b - 1] is whitespace, so it is none of the
    sentence-ending punctuation marks. *)
Theorem boundary_follows_whitespace {U : UnicodeData} text bs b :
  find_sentence_boundaries __init__ text = Some bs → b ∈ bs →
  0 < b ≤ len text
  ∧ ∃ c, py_index text (b - 1) = Some c
         ∧ Py_UNICODE_ISSPACE c = true ∧ cls_end c = false.
Proof.
  intros Hbs Hb.
  destruct (find_sentence_boundaries_accepted _ _ _ _ Hbs Hb)
    as (rule & [i e] & Hrule & _ & Hm & -> & _).
  apply finditer_sound in Hm.
  destruct (rule_match_ends_in_space _ _ _ _ Hrule Hm) as (He & c & Hc & Hsp).
  simpl in *. assert (Hlt := lookup_lt_Some _ _ _ Hc). unfold len.
  split; [lia|]. exists c.
  destruct (py_index_in_range text (Z.of_nat e - 1)) as [-> _]; [unfold len; lia|].
  replace (Z.to_nat (Z.of_nat e - 1)) with (e - 1)%nat by lia.
  auto using space_not_end.
Qed.

Lemma boundary_follows_whitespace_witness :
  0 < 8 ≤ len text_three
  ∧ ∃ c, py_index text_three (8 - 1) = Some c
         ∧ Py_UNICODE_ISSPACE c = true ∧ cls_end c = false.
Proof.
  apply (boundary_follows_whitespace (U:=excerpt) text_three [8; 16] 8).
  - vm_compute. reflexivity.
  - left.
Defined.

(** C7: when the characters at [p - 1] and [p] are both digits the
    blocking evaluator answers [True] at [p], and [p] is not among the
    returned offsets; for the 3.14 text nothing is returned at all, so
    no boundary lies between the 3 and the 14. *)
Theorem decimal_adjacency_blocks :
  (∀ (U : UnicodeData) self text p a b,
     0 < p < len text →
     py_index text (p - 1) = Some a → py_index text p = Some b →
     ch_isdigit a = true → ch_isdigit b = true →
     _is_blocked_boundary self text p = Some true
     ∧ ∀ bs, find_sentence_boundaries self text = Some bs → p ∉ bs)
  ∧ (slice text_decimal 12 16 = u8 "3.14"
     ∧ find_sentence_boundaries (U:=excerpt) __init__ text_decimal = Some []).
Proof.
  split; [|split_and!; vm_compute; reflexivity].
  intros U self text p a b Hp Ha Hb Hda Hdb.
  assert (Hblk : _is_blocked_boundary self text p = Some true).
  { unfold _is_blocked_boundary.
    destruct (is_abbreviation text (p - 1)); [done|].
    destruct (is_initials_context self text p); [done|].
    rewrite (proj2 (Z.ltb_lt 0 p)), (proj2 (Z.ltb_lt p _)) by lia. simpl.
    rewrite Ha. simpl. rewrite Hda, Hb. simpl. by rewrite Hdb. }
  split; [done|]. intros bs Hbs Hin.
  destruct (find_sentence_boundaries_accepted _ _ _ _ Hbs Hin)
    as (rule & m & _ & _ & _ & _ & Hfree).
  congruence.
Qed.

Lemma decimal_adjacency_blocks_witness :
  _is_blocked_boundary (U:=excerpt) __init__ (u8 "3.14") 3 = Some true
  ∧ ∀ bs, find_sentence_boundaries (U:=excerpt) __init__ (u8 "3.14") = Some bs → 3 ∉ bs.
Proof.
  apply (proj1 decimal_adjacency_blocks excerpt __init__ (u8 "3.14") 3 49%N 52%N);
    vm_compute; (reflexivity || (split; reflexivity)).
Defined.

(** C8: whatever order the set of collected offsets is iterated in, a
    call on a fixed text has one possible result, the one
    [find_sentence_boundaries] computes. *)
Theorem find_sentence_boundaries_deterministic {U : UnicodeData} self text r1 r2 :
  find_sentence_boundaries_outcome self text r1 →
  find_sentence_boundaries_outcome self text r2 →
  r1 = r2 ∧ r1 = find_sentence_boundaries self text.
Proof.
  unfold find_sentence_boundaries_outcome, find_sentence_boundaries.
  destruct (boundaries_loop self text) as [l|]; simpl.
  - intros (it1 & H1 & ->) (it2 & H2 & ->).
    rewrite (sorted_order_irrelevant it1 _ H1), (sorted_order_irrelevant it2 _ H2).
    done.
  - by intros -> ->.
Qed.

Lemma find_sentence_boundaries_deterministic_witness :
  Some (sorted [9; 4]) = Some (sorted [4; 9])
  ∧ Some (sorted [9; 4]) = find_sentence_boundaries (U:=excerpt) __init__ text_exclaim.
Proof.
  assert (Hloop : boundaries_loop (U:=excerpt) __init__ text_exclaim = Some [4; 9; 4; 9])
    by (vm_compute; reflexivity).
  apply (find_sentence_boundaries_deterministic (U:=excerpt) __init__ text_exclaim);
    unfold find_sentence_boundaries_outcome; rewrite Hloop.
  - exists [9; 4]. split; [|reflexivity].
    vm_compute. first [reflexivity | apply perm_swap].
  - exists [4; 9]. split; [|reflexivity].
    vm_compute. first [reflexivity | apply perm_swap].
Defined.

(** ** The example texts *)

(** C6: the three-sentence text has exactly the two boundaries 8 and
    16, the offsets after the first and the second sentence with its
    space, and splitting there gives the three sentences. *)
Theorem three_sentences_two_boundaries :
  find_sentence_boundaries (U:=excerpt) __init__ text_three = Some [8; 16]
  ∧ slice text_three 0 8 = u8 "Первое. "
  ∧ slice text_three 8 16 = u8 "Второе. "
  ∧ _split_by_boundaries text_three [8; 16]
    = [u8 "Первое."; u8 "Второе."; u8 "Третье."].
Proof. split_and!; vm_compute; reflexivity. Qed.

(** C2 as stated fails: the call does not return exactly one boundary
    for the text with the year abbreviation. *)
Lemma year_text_not_one_boundary :
  ¬ ∃ b, find_sentence_boundaries (U:=excerpt) __init__ text_year = Some [b].
Proof. intros [b Hb]. vm_compute in Hb. discriminate. Qed.

(** C2, amended: no rule matches anywhere in the text, so no boundary
    is placed after the abbreviation and the result is the empty
    list; the final period, which no whitespace follows, gives no
    boundary either. *)
Theorem year_text_no_boundary :
  slice text_year 18 20 = u8 "г."
  ∧ Forall (λ rule, finditer (U:=excerpt) (pattern rule) text_year = [])
           (rules __init__)
  ∧ find_sentence_boundaries (U:=excerpt) __init__ text_year = Some [].
Proof.
  split; [vm_compute; reflexivity|]. split; [|vm_compute; reflexivity].
  repeat constructor.
Qed.

(** C3 as stated fails: the call does not return exactly one boundary
    for the text with the initials. *)
Lemma initials_text_not_one_boundary :
  ¬ ∃ b, find_sentence_boundaries (U:=excerpt) __init__ text_initials = Some [b].
Proof. intros [b Hb]. vm_compute in Hb. discriminate. Qed.

(** C3, amended: the two candidates after the initials, at 3 and 6,
    are the only matches of the rule table, both are blocked by the
    initials context, and the result is the empty list. *)
Theorem initials_text_no_boundary :
  (λ rule, finditer (U:=excerpt) (pattern rule) text_initials) <$> rules __init__
  = [[(1, 3); (4, 6)]; []; []]%nat
  ∧ is_initials_context (U:=excerpt) __init__ text_initials 3 = true
  ∧ is_initials_context (U:=excerpt) __init__ text_initials 6 = true
  ∧ _is_blocked_boundary (U:=excerpt) __init__ text_initials 3 = Some true
  ∧ _is_blocked_boundary (U:=excerpt) __init__ text_initials 6 = Some true
  ∧ find_sentence_boundaries (U:=excerpt) __init__ text_initials = Some [].
Proof. split_and!; vm_compute; reflexivity. Qed.

(** C1 at the failing input: the period at offset 17 follows the
    abbreviation at 13..17, and [is_abbreviation] says so when given
    the offset of the period; the candidate of the match 17..19 is 19,
    the evaluator asks [is_abbreviation] about offset 18, the space,
    and the boundary is returned. *)
Theorem abbreviation_candidate_not_blocked :
  finditer (U:=excerpt) (pattern sentence_end_capital) text_professor = [(17, 19)%nat]
  ∧ slice text_professor 13 17 = u8 "проф"
  ∧ strip (str_lower (slice text_professor 13 17)) ∈ ABBREVIATIONS
  ∧ is_abbreviation (U:=excerpt) text_professor 17 = true
  ∧ is_abbreviation (U:=excerpt) text_professor (19 - 1) = false
  ∧ _is_blocked_boundary (U:=excerpt) __init__ text_professor 19 = Some false
  ∧ find_sentence_boundaries (U:=excerpt) __init__ text_professor = Some [19].
Proof.
  split; [vm_compute; reflexivity|]. split; [vm_compute; reflexivity|].
  split; [apply (bool_decide_unpack _); vm_compute; reflexivity|].
  split_and!; vm_compute; reflexivity.
Qed.

(** ** The cached instance *)

Lemma calls_cached σ obj n :
  _global_patterns σ = Some obj → calls n σ = (replicate n obj, σ).
Proof.
  intros Hc. induction n as [|n IH]; simpl; [done|].
  unfold get_syntagrus_patterns. rewrite Hc, IH. done.
Qed.

(** C10: the first call allocates one instance, stores its address in
    the module global and returns it; every later call returns that
    address and leaves the heap, hence the number of instances, as it
    is. *)
Theorem get_syntagrus_patterns_cached σ :
  _global_patterns σ = None →
  ∃ obj σ1,
    get_syntagrus_patterns σ = (obj, σ1)
    ∧ heap σ !! obj = None
    ∧ heap σ1 = heap σ ++ [__init__]
    ∧ heap σ1 !! obj = Some __init__
    ∧ _global_patterns σ1 = Some obj
    ∧ ∀ n, calls n σ1 = (replicate n obj, σ1).
Proof.
  intros Hnone. unfold get_syntagrus_patterns. rewrite Hnone. simpl.
  eexists _, _. split; [done|]. simpl. repeat split.
  - by apply lookup_ge_None.
  - by rewrite lookup_app_r, Nat.sub_diag.
  - intros n. by apply calls_cached.
Qed.

Lemma get_syntagrus_patterns_cached_witness :
  ∃ obj σ1,
    get_syntagrus_patterns module_loaded = (obj, σ1)
    ∧ heap module_loaded !! obj = None
    ∧ heap σ1 = heap module_loaded ++ [__init__]
    ∧ heap σ1 !! obj = Some __init__
    ∧ _global_patterns σ1 = Some obj
    ∧ ∀ n, calls n σ1 = (replicate n obj, σ1).
Proof. apply (get_syntagrus_patterns_cached module_loaded). reflexivity. Defined.

(** ** The quality scorer *)









Section Scorer.
Context {U : UnicodeData}.






Lemma denotes_RAlts rs s i j :
  rs ≠ [] → denotes (RAlts rs) s i j ↔ ∃ r, r ∈ rs ∧ denotes r s i j.
Proof.
  induction rs as [|r rs IH]; [done|]. intros _.
  destruct rs as [|r' rs].
  - simpl. split; [intros H; exists r; split; [by left|done]|].
    by intros (r0 & ->%list_elem_of_singleton & H).
  - change (RAlts (r :: r' :: rs)) with (RAlt r (RAlts (r' :: rs))).
    simpl denotes. rewrite IH by done. split.
    + intros [H|(r0 & Hin & H)]; [exists r; split; [by left|done]|].
      exists r0. split; [by right|done].
    + intros (r0 & [->|Hin]%elem_of_cons & H); [by left|right; eauto].
Qed.

Lemma found_alternation_order pre post rs1 rs2 sent :
  rs1 ≡ₚ rs2 →
  found (pre ⊙ RAlts rs1 ⊙ post) sent = found (pre ⊙ RAlts rs2 ⊙ post) sent.
Proof.
  intros Hperm. destruct rs1 as [|r1 rs1].
  { apply Permutation_nil_l in Hperm. by subst rs2. }
  assert (Hne2 : rs2 ≠ []).
  { intros ->. symmetry in Hperm. by apply Permutation_nil_l in Hperm. }
  apply eq_true_iff_eq. rewrite !found_denotes.
  split; intros (i & j & Hi & m0 & Hpre & m & Halt & Hpost);
    exists i, j; (split; [done|]); exists m0; (split; [done|]);
    exists m; (split; [|done]);
    rewrite denotes_RAlts in Halt |- * by done;
    destruct Halt as (r & Hr & Hd); exists r; (split; [|done]).
  - by rewrite <- Hperm.
  - by rewrite Hperm.
Qed.

(** The alternation of [abbr_pattern] is joined in the iteration order
    of a set; whether the pattern is found in a sentence does not
    depend on that order. *)
Lemma abbr_pattern_order_irrelevant order sent :
  order ≡ₚ elements ABBREVIATIONS →
  found (RWordB ⊙ RAlts (RLit <$> order) ⊙ RChr (ord ".")) sent
  = found (abbr_pattern __init__) sent.
Proof.
  intros Hperm. apply found_alternation_order. by apply fmap_Permutation.
Qed.


End Scorer.

Example quality_score_example :
  _split_by_boundaries (u8 "Это так. г. Тут.") [9; 12]
  = [u8 "Это так."; u8 "г."; u8 "Тут."]
  ∧ Qeq (get_quality_score (U:=excerpt) __init__ (u8 "Это так. г. Тут.") [9; 12])
        0.55%Q
  ∧ Qeq (get_quality_score (U:=excerpt) __init__ text_three [8; 16]) 1.0%Q.
Proof. split_and!; vm_compute; reflexivity. Qed.

(** * Further properties of the engine *)

Lemma for_each_append {A B} (xs : list A) (g : A → list B)
    (body : A → list B → option (list B)) acc :
  (∀ x acc, x ∈ xs → body x acc = Some (acc ++ g x)) →
  for_each xs body acc = Some (acc ++ (xs ≫= g)).
Proof.
  revert acc. induction xs as [|x xs IH]; intros acc Hbody; simpl.
  - by rewrite app_nil_r.
  - rewrite Hbody by left. simpl. rewrite IH by (intros; apply Hbody; by right).
    by rewrite <- (assoc_L (++)).
Qed.

Section Collected.
Context {U : UnicodeData}.

(** The list before sorting is the concatenation, rule by rule in
    priority order and match by match, of the unblocked match ends. *)
Lemma boundaries_loop_closed_form self text :
  boundaries_loop self text
  = Some (sorted_by_priority (rules self) ≫= λ rule,
          finditer (pattern rule) text ≫= contribution self text rule).
Proof.
  unfold boundaries_loop.
  rewrite (for_each_append _
    (λ rule, finditer (pattern rule) text ≫= contribution self text rule)); [done|].
  intros rule acc _.
  apply for_each_append. intros m acc' _. unfold contribution. cbv zeta.
  destruct (is_boundary rule); [|by rewrite app_nil_r].
  destruct (_is_blocked_boundary_total self text (Z.of_nat m.2)) as [[] ->]; simpl;
    [by rewrite app_nil_r|done].
Qed.

Lemma boundaries_loop_elem self text bs b :
  boundaries_loop self text = Some bs → b ∈ bs ↔ accepted self text b.
Proof.
  rewrite boundaries_loop_closed_form. intros [= <-].
  rewrite list_elem_of_bind. unfold accepted. split.
  - intros (rule & (m & Hb & Hm)%list_elem_of_bind & Hrule).
    unfold sorted_by_priority in Hrule. rewrite merge_sort_Permutation in Hrule.
    unfold contribution in Hb. exists rule, m.
    destruct (is_boundary rule); [|by apply elem_of_nil in Hb].
    destruct (_is_blocked_boundary self text (Z.of_nat m.2)) as [[]|] eqn:Hblk;
      try (by apply elem_of_nil in Hb).
    apply list_elem_of_singleton in Hb as ->. done.
  - intros (rule & m & Hrule & Hbd & Hm & -> & Hblk).
    exists rule. split.
    + apply list_elem_of_bind. exists m. split; [|done].
      unfold contribution. rewrite Hbd, Hblk. by left.
    + unfold sorted_by_priority. by rewrite merge_sort_Permutation.
Qed.

Lemma result_elem_accepted self text bs b :
  find_sentence_boundaries self text = Some bs →
  b ∈ bs ↔ accepted self text b.
Proof.
  unfold find_sentence_boundaries.
  destruct (boundaries_loop self text) as [l|] eqn:Hl; simpl; [|done].
  intros [= <-]. unfold sorted. rewrite merge_sort_Permutation.
  rewrite elem_of_elements, elem_of_list_to_set. by apply boundaries_loop_elem.
Qed.

(** The returned offsets are exactly the ends of the matches of the
    boundary rules that the blocking evaluator lets through. *)
Theorem find_sentence_boundaries_elem self text bs b :
  find_sentence_boundaries self text = Some bs →
  b ∈ bs ↔ accepted self text b.
Proof. apply result_elem_accepted. Qed.

Lemma _is_blocked_boundary_depends self1 self2 text pos :
  initials_pattern self1 = initials_pattern self2 →
  _is_blocked_boundary self1 text pos = _is_blocked_boundary self2 text pos.
Proof.
  intros Hi. unfold _is_blocked_boundary, is_initials_context. by rewrite Hi.
Qed.

(** The order of the rule table, and with it the priorities, has no
    effect on the result: the offsets go through a set and a sort. *)
Theorem find_sentence_boundaries_rule_order self1 self2 text :
  rules self1 ≡ₚ rules self2 →
  initials_pattern self1 = initials_pattern self2 →
  find_sentence_boundaries self1 text = find_sentence_boundaries self2 text.
Proof.
  intros Hrules Hinit. unfold find_sentence_boundaries.
  destruct (boundaries_loop_total self1 text) as [l1 H1].
  destruct (boundaries_loop_total self2 text) as [l2 H2].
  rewrite H1, H2. simpl.
  assert (Hset : (list_to_set l1 : gset Z) = list_to_set l2); [|by rewrite Hset].
  apply set_eq. intros b. rewrite !elem_of_list_to_set.
  rewrite (boundaries_loop_elem _ _ _ b H1), (boundaries_loop_elem _ _ _ b H2).
  unfold accepted. split; intros (rule & m & Hrule & Hbd & Hm & Hb & Hblk);
    exists rule, m; split_and!; try done.
  - by rewrite <- Hrules.
  - by rewrite <- (_is_blocked_boundary_depends self1 self2).
  - by rewrite Hrules.
  - by rewrite (_is_blocked_boundary_depends self1 self2).
Qed.

End Collected.

Lemma find_sentence_boundaries_elem_witness :
  8 ∈ [8; 16] ↔ accepted (U:=excerpt) __init__ text_three 8.
Proof.
  apply (find_sentence_boundaries_elem (U:=excerpt) __init__ text_three [8; 16] 8).
  vm_compute. reflexivity.
Defined.

Lemma find_sentence_boundaries_rule_order_witness :
  find_sentence_boundaries (U:=excerpt) __init__ text_exclaim
  = find_sentence_boundaries (U:=excerpt)
      {| rules := [question_exclamation; paragraph_end; sentence_end_capital];
         abbr_pattern := abbr_pattern __init__;
         initials_pattern := initials_pattern __init__;
         sentence_end_pattern := sentence_end_pattern __init__ |}
      text_exclaim.
Proof.
  apply (find_sentence_boundaries_rule_order (U:=excerpt)); [|reflexivity].
  simpl. apply (reverse_Permutation [question_exclamation; paragraph_end;
                                      sentence_end_capital]).
Defined.

(** ** Which checks of the blocking evaluator can fire *)

Lemma excerpt_lower_snoc s c :
  cls_end c = true ∨ Py_UNICODE_ISSPACE c = true →
  str_lower (UnicodeData:=excerpt) (s ++ [c]) = str_lower (UnicodeData:=excerpt) s ++ [c].
Proof.
  intros Hc. simpl. rewrite fmap_app. f_equal. simpl. f_equal.
  destruct Hc as [Hc|Hc]; [|by apply excerpt_lower_space].
  unfold cls_end in Hc.
  apply orb_prop in Hc as [Hc|Hc]; [apply orb_prop in Hc as [Hc|Hc]|];
    apply N.eqb_eq in Hc; by subst c.
Qed.

Lemma excerpt_space_not_digit c :
  Py_UNICODE_ISSPACE c = true → ch_isdigit (UnicodeData:=excerpt) c = false.
Proof.
  intros Hc. simpl. unfold in_range.
  destruct ((48 <=? c)%N && (c <=? 57)%N) eqn:Hd; [|done].
  apply andb_prop in Hd as [?%N.leb_le ?%N.leb_le].
  unfold Py_UNICODE_ISSPACE in Hc.
  repeat (apply orb_prop in Hc as [Hc|Hc]);
    repeat (apply andb_prop in Hc as [Hc ?]);
    repeat match goal with
           | H : (_ <=? _)%N = true |- _ => apply N.leb_le in H
           | H : (_ =? _)%N = true |- _ => apply N.eqb_eq in H
           end; lia.
Qed.

Lemma abbreviation_check_never_fires_witness :
  is_abbreviation (U:=excerpt) text_professor (Z.of_nat (17, 19)%nat.2 - 1) = false.
Proof.
  apply (abbreviation_check_never_fires (U:=excerpt) excerpt_lower_snoc eq_refl
           sentence_end_capital text_professor (17, 19)%nat).
  - left.
  - vm_compute. left.
Defined.

Section Blocking.
Context {U : UnicodeData}.

Hypothesis lower_snoc : ∀ s c,
  cls_end c = true ∨ Py_UNICODE_ISSPACE c = true →
  str_lower (s ++ [c]) = str_lower s ++ [c].
Hypothesis lower_nil : str_lower [] = [].
Hypothesis space_not_digit : ∀ c, Py_UNICODE_ISSPACE c = true → ch_isdigit c = false.

Lemma candidate_answer self rule text m :
  rule ∈ rules __init__ → m ∈ finditer (pattern rule) text →
  _is_blocked_boundary self text (Z.of_nat m.2)
  = Some (is_initials_context self text (Z.of_nat m.2)).
Proof.
  intros Hrule Hm. unfold _is_blocked_boundary.
  rewrite (abbreviation_check_never_fires lower_snoc lower_nil rule text m Hrule Hm).
  destruct (is_initials_context self text (Z.of_nat m.2)); [done|].
  destruct ((0 <? Z.of_nat m.2) && (Z.of_nat m.2 <? len text)) eqn:Hg; [|done].
  apply andb_prop in Hg as [H0%Z.ltb_lt Hl%Z.ltb_lt].
  apply finditer_sound in Hm.
  destruct (rule_match_ends_in_space _ _ _ _ Hrule Hm) as (He & c & Hc & Hsp).
  destruct (py_index_in_range text (Z.of_nat m.2 - 1)) as [-> _]; [lia|].
  replace (Z.to_nat (Z.of_nat m.2 - 1)) with (m.2 - 1)%nat by lia.
  rewrite Hc. simpl. by rewrite (space_not_digit c Hsp).
Qed.

(** At the end of a match of a rule of the table neither the
    abbreviation check nor the decimal check fires: the evaluator
    answers what the initials check answers. *)
Theorem candidate_blocked_iff_initials self rule text m :
  rule ∈ rules __init__ → m ∈ finditer (pattern rule) text →
  _is_blocked_boundary self text (Z.of_nat m.2)
  = Some (is_initials_context self text (Z.of_nat m.2)).
Proof. apply candidate_answer. Qed.

(** The result is the set of match ends of the three rules outside an
    initials context. *)
Theorem find_sentence_boundaries_initials_only text bs b :
  find_sentence_boundaries __init__ text = Some bs →
  b ∈ bs ↔ ∃ rule m, rule ∈ rules __init__ ∧ m ∈ finditer (pattern rule) text
                     ∧ b = Z.of_nat m.2
                     ∧ is_initials_context __init__ text b = false.
Proof.
  intros Hbs. rewrite (result_elem_accepted _ _ _ b Hbs). unfold accepted.
  split.
  - intros (rule & m & Hrule & _ & Hm & -> & Hblk).
    exists rule, m. split_and!; try done.
    rewrite (candidate_answer __init__ rule text m Hrule Hm) in Hblk.
    by injection Hblk.
  - intros (rule & m & Hrule & Hm & -> & Hinit).
    exists rule, m. split_and!; try done.
    + revert Hrule. simpl. rewrite !elem_of_cons, elem_of_nil.
      by intros [->|[->|[->|[]]]].
    + by rewrite (candidate_answer __init__ rule text m Hrule Hm), Hinit.
Qed.

End Blocking.

Lemma candidate_blocked_iff_initials_witness :
  _is_blocked_boundary (U:=excerpt) __init__ text_initials (Z.of_nat (1, 3)%nat.2)
  = Some (is_initials_context (U:=excerpt) __init__ text_initials (Z.of_nat (1, 3)%nat.2)).
Proof.
  apply (candidate_blocked_iff_initials (U:=excerpt) excerpt_lower_snoc eq_refl
           excerpt_space_not_digit __init__ sentence_end_capital text_initials
           (1, 3)%nat).
  - left.
  - vm_compute. left.
Defined.

Lemma find_sentence_boundaries_initials_only_witness :
  8 ∈ [8; 16] ↔
  ∃ rule m, rule ∈ rules __init__
            ∧ m ∈ finditer (U:=excerpt) (pattern rule) text_three
            ∧ 8 = Z.of_nat m.2
            ∧ is_initials_context (U:=excerpt) __init__ text_three 8 = false.
Proof.
  apply (find_sentence_boundaries_initials_only (U:=excerpt) excerpt_lower_snoc eq_refl
           excerpt_space_not_digit text_three [8; 16] 8).
  vm_compute. reflexivity.
Defined.

(** ** The shape of the text around a boundary *)

Section Shape.
Context {U : UnicodeData}.

(** Before every returned offset lie one or more sentence-end marks
    followed by one or more whitespace characters that reach up to
    the offset; no boundary is smaller than 2. *)
Theorem boundary_after_marks_and_space text bs b :
  find_sentence_boundaries __init__ text = Some bs → b ∈ bs →
  ∃ i m1 e, b = Z.of_nat e ∧ (i < m1 < e)%nat
    ∧ (∀ m, (i ≤ m < m1)%nat → ∃ c, text !! m = Some c ∧ cls_end c = true)
    ∧ (∀ m, (m1 ≤ m < e)%nat → ∃ c, text !! m = Some c ∧ Py_UNICODE_ISSPACE c = true).
Proof.
  intros Hbs Hb.
  apply (result_elem_accepted _ _ _ b Hbs) in Hb
    as (rule & [i e] & Hrule & _ & Hm%finditer_sound & -> & _).
  destruct (rule_match_shape _ _ _ _ Hrule Hm) as (m1 & H1 & Hend & Hsp).
  by exists i, m1, e.
Qed.

(** A text without a sentence-end mark, or without whitespace, has no
    boundary. *)
Theorem no_mark_or_no_space_no_boundary text :
  (∀ c, c ∈ text → cls_end c = false)
  ∨ (∀ c, c ∈ text → Py_UNICODE_ISSPACE c = false) →
  find_sentence_boundaries __init__ text = Some [].
Proof.
  intros Hno. unfold find_sentence_boundaries.
  destruct (boundaries_loop_total __init__ text) as [l Hl]. rewrite Hl. simpl.
  assert (l = []) as ->; [|by vm_compute].
  destruct l as [|b l]; [done|]. exfalso.
  assert (Hacc : accepted __init__ text b)
    by (apply (boundaries_loop_elem _ _ _ b Hl); left).
  destruct Hacc as (rule & [i e] & Hrule & _ & Hm%finditer_sound & _ & _).
  destruct (rule_match_shape _ _ _ _ Hrule Hm) as (m1 & H1 & Hend & Hsp).
  simpl in H1, Hend, Hsp. destruct Hno as [Hno|Hno].
  - destruct (Hend i) as (c & Hc & He); [lia|].
    rewrite (Hno c) in He; [done|]. by eapply list_elem_of_lookup_2.
  - destruct (Hsp m1) as (c & Hc & Hs); [lia|].
    rewrite (Hno c) in Hs; [done|]. by eapply list_elem_of_lookup_2.
Qed.

End Shape.

Lemma boundary_after_marks_and_space_witness :
  ∃ i m1 e, 8 = Z.of_nat e ∧ (i < m1 < e)%nat
    ∧ (∀ m, (i ≤ m < m1)%nat → ∃ c, text_three !! m = Some c ∧ cls_end c = true)
    ∧ (∀ m, (m1 ≤ m < e)%nat →
         ∃ c, text_three !! m = Some c ∧ Py_UNICODE_ISSPACE c = true).
Proof.
  apply (boundary_after_marks_and_space (U:=excerpt) text_three [8; 16] 8).
  - vm_compute. reflexivity.
  - left.
Defined.

Lemma no_mark_or_no_space_no_boundary_witness :
  find_sentence_boundaries (U:=excerpt) __init__ (u8 "Привет мир") = Some [].
Proof.
  apply (no_mark_or_no_space_no_boundary (U:=excerpt) (u8 "Привет мир")).
  left. intros c Hc. vm_compute in Hc.
  repeat (apply elem_of_cons in Hc as [->|Hc]; [reflexivity|]).
  by apply elem_of_nil in Hc.
Defined.

(** ** The initials check *)

Lemma slice_lookup {A} (s : list A) a b k c :
  0 ≤ a → 0 ≤ b → slice s a b !! k = Some c →
  s !! (Z.to_nat a + k)%nat = Some c ∧ a + Z.of_nat k < b.
Proof.
  intros Ha Hb. unfold slice, adjust_index.
  rewrite (proj2 (Z.ltb_ge a 0)), (proj2 (Z.ltb_ge b 0)) by lia.
  intros [Hd Hk]%lookup_take_Some. rewrite lookup_drop in Hd.
  assert (Hlt := lookup_lt_Some _ _ _ Hd). unfold len in *.
  assert (Hmin : Z.min a (Z.of_nat (length s)) = a) by lia.
  rewrite Hmin in Hd, Hk. split; [done|]. lia.
Qed.

Section Initials.
Context {U : UnicodeData}.

Lemma denotes_letter_then p d rest s i j :
  denotes (RWordB ⊙ RSet p ⊙ RChr d ⊙ rest) s i j →
  ∃ c, s !! i = Some c ∧ p c = true ∧ s !! S i = Some d.
Proof.
  simpl. intros (m0 & [-> _] & m1 & (c & Hc & Hp & ->) & m2
                 & (c' & Hc' & ->%N.eqb_eq & ->) & _).
  by exists c.
Qed.

Lemma initials_context_initial text pos :
  0 ≤ pos → is_initials_context __init__ text pos = true →
  ∃ i c, pos - 20 ≤ Z.of_nat i ∧ Z.of_nat i + 1 < pos + 20
         ∧ text !! i = Some c ∧ cls_upper c = true
         ∧ text !! S i = Some (ord ".").
Proof.
  intros Hpos Hctx. unfold is_initials_context in Hctx.
  change (found (initials_pattern __init__)
            (slice text (Z.max 0 (pos - 20)) (Z.min (len text) (pos + 20))) = true)
    in Hctx.
  apply found_denotes in Hctx as (i & j & _ & Hden).
  apply denotes_letter_then in Hden as (c & Hc & Hup & Hc').
  apply slice_lookup in Hc as [Hc Hci]; [|lia|unfold len; lia].
  apply slice_lookup in Hc' as [Hc' Hci']; [|lia|unfold len; lia].
  exists (Z.to_nat (Z.max 0 (pos - 20)) + i)%nat, c.
  rewrite <- Nat.add_succ_r. split_and!; try done; lia.
Qed.

(** The initials check answers [True] only when an upper-case
    Cyrillic letter directly followed by a period lies inside the
    window of 20 characters on either side of the offset. *)
Theorem initials_context_needs_initial text pos :
  0 ≤ pos → is_initials_context __init__ text pos = true →
  ∃ i c, pos - 20 ≤ Z.of_nat i ∧ Z.of_nat i + 1 < pos + 20
         ∧ text !! i = Some c ∧ cls_upper c = true
         ∧ text !! S i = Some (ord ".").
Proof. apply initials_context_initial. Qed.

(** A text in which no upper-case Cyrillic letter is directly followed
    by a period has no initials context anywhere. *)
Theorem no_initial_no_context text pos :
  0 ≤ pos →
  (∀ i c, text !! i = Some c → cls_upper c = true → text !! S i ≠ Some (ord ".")) →
  is_initials_context __init__ text pos = false.
Proof.
  intros Hpos Hno. destruct (is_initials_context __init__ text pos) eqn:Hctx; [|done].
  destruct (initials_context_initial text pos Hpos Hctx)
    as (i & c & _ & _ & Hc & Hup & Hdot).
  by destruct (Hno i c Hc Hup).
Qed.

End Initials.

Lemma initials_context_needs_initial_witness :
  ∃ i c, 3 - 20 ≤ Z.of_nat i ∧ Z.of_nat i + 1 < 3 + 20
         ∧ text_initials !! i = Some c ∧ cls_upper c = true
         ∧ text_initials !! S i = Some (ord ".").
Proof.
  apply (initials_context_needs_initial (U:=excerpt) text_initials 3); [lia|].
  vm_compute. reflexivity.
Defined.

Lemma no_initial_no_context_witness :
  is_initials_context (U:=excerpt) __init__ (u8 "Да. Нет.") 4 = false.
Proof.
  apply (no_initial_no_context (U:=excerpt) (u8 "Да. Нет.") 4); [lia|].
  intros i c Hc Hup.
  do 8 (destruct i as [|i]; [vm_compute in Hc; injection Hc as <-;
                             first [discriminate Hup | vm_compute; discriminate]|]).
  vm_compute in Hc. discriminate.
Defined.

(** ** Splitting at boundaries *)

Lemma substring_of_trans (a b c : str) :
  substring_of a b → substring_of b c → substring_of a c.
Proof.
  intros (p1 & q1 & ->) (p2 & q2 & ->). exists (p2 ++ p1), (q1 ++ q2).
  by rewrite <- !(assoc_L (++)).
Qed.

Lemma slice_substring (s : str) a b : substring_of (slice s a b) s.
Proof.
  unfold slice.
  exists (take (Z.to_nat (adjust_index (len s) a)) s),
    (drop (Z.to_nat (adjust_index (len s) b - adjust_index (len s) a))
       (drop (Z.to_nat (adjust_index (len s) a)) s)).
  by rewrite !take_drop.
Qed.

Lemma slice_from_substring (s : str) a : substring_of (slice_from s a) s.
Proof.
  exists (take (Z.to_nat (adjust_index (len s) a)) s), [].
  unfold slice_from. by rewrite app_nil_r, take_drop.
Qed.

Lemma lstrip_substring s : substring_of (lstrip s) s.
Proof.
  induction s as [|c s IH]; [by exists [], []|]. simpl.
  destruct (Py_UNICODE_ISSPACE c); [|by exists [], []; rewrite app_nil_r].
  destruct IH as (p & q & Hs). exists (c :: p), q. simpl. by rewrite <- Hs.
Qed.

Lemma strip_substring s : substring_of (strip s) s.
Proof.
  apply (substring_of_trans _ (lstrip s)); [|apply lstrip_substring].
  unfold strip, rstrip.
  destruct (lstrip_substring (reverse (lstrip s))) as (p & q & Hr).
  exists (reverse q), (reverse p).
  apply (f_equal reverse) in Hr.
  rewrite reverse_involutive, !reverse_app, <- (assoc_L (++)) in Hr. exact Hr.
Qed.

(** Every piece is a contiguous part of the text, and there is at most
    one piece more than there are boundaries, whatever the boundaries
    are. *)
Theorem _split_by_boundaries_substrings text boundaries :
  Forall (λ piece, substring_of piece text) (_split_by_boundaries text boundaries)
  ∧ (length (_split_by_boundaries text boundaries) ≤ length boundaries + 1)%nat.
Proof.
  unfold _split_by_boundaries.
  set (inv := λ (sentences : list str) (n : nat),
         Forall (λ piece, substring_of piece text) sentences
         ∧ (length sentences ≤ n)%nat).
  assert (Hadd : ∀ sentences n s, inv sentences n → substring_of s text →
    inv (if bool_decide (strip s = []) then sentences else sentences ++ [strip s]) (S n)).
  { intros sentences n s [Hf Hl] Hs. case_bool_decide; [split; [done|lia]|]. split.
    - apply Forall_app. split; [done|]. constructor; [|constructor].
      by apply (substring_of_trans _ s), Hs; apply strip_substring.
    - rewrite length_app. simpl. lia. }
  assert (Hloop : ∀ bs (acc : list str * Z) n, inv acc.1 n →
    inv (foldl (λ '(sentences, start) boundary,
                  let sentence := strip (slice text start boundary) in
                  (if bool_decide (sentence = []) then sentences
                   else sentences ++ [sentence], boundary)) acc bs).1
        (n + length bs)%nat).
  { induction bs as [|b bs IH]; intros [sentences start] n Hacc; simpl.
    - by rewrite Nat.add_0_r.
    - rewrite <- Nat.add_succ_comm. apply IH. simpl.
      apply Hadd; [done|apply slice_substring]. }
  specialize (Hloop boundaries ([], 0) 0%nat (conj (Forall_nil_2 _) (Nat.le_refl _))).
  destruct (foldl _ _ boundaries) as [sentences start]. simpl in Hloop.
  destruct (start <? len text).
  - destruct (Hadd sentences _ (slice_from text start) Hloop (slice_from_substring _ _))
      as [Hf Hl]. split; [done|lia].
  - destruct Hloop as [Hf Hl]. split; [done|lia].
Qed.

(** ** The score *)

Section Score.
Context {U : UnicodeData}.







End Score.



Section ScoreOrder.
Context {U : UnicodeData}.

(** The score does not depend on the order in which the abbreviation
    set was iterated when the alternation of [abbr_pattern] was
    joined. *)
Theorem get_quality_score_order_irrelevant order text boundaries :
  order ≡ₚ elements ABBREVIATIONS →
  get_quality_score (compiled_in_order order) text boundaries
  = get_quality_score __init__ text boundaries.
Proof.
  intros Hperm.
  assert (Hstep : ∀ p s, penalise (compiled_in_order order) p s = penalise __init__ p s).
  { intros p s. unfold penalise.
    change (abbr_pattern (compiled_in_order order))
      with (RWordB ⊙ RAlts (RLit <$> order) ⊙ RChr (ord ".")).
    by rewrite (abbr_pattern_order_irrelevant order (strip s) Hperm). }
  assert (Hfold : ∀ l p, foldl (penalise (compiled_in_order order)) p l
                         = foldl (penalise __init__) p l).
  { induction l as [|s l IH]; intros p; simpl; [done|]. by rewrite Hstep, IH. }
  unfold get_quality_score. by rewrite Hfold.
Qed.

End ScoreOrder.

Lemma get_quality_score_order_irrelevant_witness :
  get_quality_score (U:=excerpt) (compiled_in_order (reverse (elements ABBREVIATIONS)))
    text_three [8; 16]
  = get_quality_score (U:=excerpt) __init__ text_three [8; 16].
Proof.
  apply (get_quality_score_order_irrelevant (U:=excerpt)).
  apply reverse_Permutation.
Defined.

(** ** The abbreviation check at the offset of the period *)

Lemma slice_middle (pre a rest : str) :
  slice (pre ++ a ++ rest) (len pre) (len pre + len a) = a.
Proof.
  rewrite slice_in_range.
  - unfold len. replace (Z.of_nat (length pre) + Z.of_nat (length a)
                         - Z.of_nat (length pre)) with (Z.of_nat (length a)) by lia.
    rewrite !Nat2Z.id, drop_app_length. by rewrite take_app_length.
  - unfold len. lia.
  - unfold len. rewrite !length_app. lia.
Qed.

(** Every abbreviation of the table is found when the offset given is
    that of the character that follows it, wherever it stands in the
    text, provided a character does follow. *)
Theorem is_abbreviation_recognises pre a rest :
  a ∈ ABBREVIATIONS → rest ≠ [] →
  is_abbreviation (U:=excerpt) (pre ++ a ++ rest) (len pre + len a) = true.
Proof.
  intros Ha Hrest.
  assert (Hrl : (0 < length rest)%nat).
  { destruct rest as [|c rest]; [by destruct Hrest|]. simpl. lia. }
  clear Hrest.
  assert (Hall : Forall (λ a, (0 < length a ≤ 10)%nat
                              ∧ strip (excerpt_lower <$> a) = a)
                        (u8 <$> ABBREVIATIONS_display)).
  { apply Forall_forall. intros x Hx.
    assert (Hb : forallb (λ a, (0 <? length a)%nat && (length a <=? 10)%nat
                               && bool_decide (strip (excerpt_lower <$> a) = a))
                   (u8 <$> ABBREVIATIONS_display) = true) by (vm_compute; reflexivity).
    rewrite forallb_forall in Hb. specialize (Hb x (proj1 (list_elem_of_In _ _) Hx)).
    clear Hx. apply andb_prop in Hb as [[H1%Nat.ltb_lt H2%Nat.leb_le]%andb_prop H3].
    apply bool_decide_eq_true in H3. split; [lia|exact H3]. }
  assert (Ha' := Ha). unfold ABBREVIATIONS in Ha'. apply elem_of_list_to_set in Ha'.
  rewrite Forall_forall in Hall. destruct (Hall a Ha') as [Hlen Hfix].
  unfold is_abbreviation.
  destruct ((len pre + len a <=? 0) || (len (pre ++ a ++ rest) <=? len pre + len a))
    eqn:Hg.
  { apply orb_prop in Hg as [Hg%Z.leb_le|Hg%Z.leb_le]; unfold len in Hg;
      rewrite ?length_app in Hg; lia. }
  apply existsb_exists. exists (len a). split.
  - apply list_elem_of_In. unfold range. apply elem_of_seqZ. unfold len. lia.
  - apply bool_decide_eq_true.
    replace (len pre + len a - len a) with (len pre) by lia.
    rewrite slice_middle. simpl. by rewrite Hfix.
Qed.

Lemma is_abbreviation_recognises_witness :
  is_abbreviation (U:=excerpt) (u8 "читал " ++ u8 "проф" ++ u8 ". Иванов")
    (len (u8 "читал ") + len (u8 "проф")) = true.
Proof.
  apply (is_abbreviation_recognises (u8 "читал ") (u8 "проф") (u8 ". Иванов")).
  - apply (bool_decide_unpack _). vm_compute. reflexivity.
  - vm_compute. discriminate.
Defined.

(** * Properties of the partition helpers *)

Import PartitionPy.

(** ** Blank chunks *)

Lemma run_all_spaces (s : str) :
  Forall (λ c, Py_UNICODE_ISSPACE c = true) s ↔
  run Py_UNICODE_ISSPACE s 0 = length s.
Proof.
  unfold run. rewrite drop_0. induction s as [|c s IH]; simpl.
  - split; [done|constructor].
  - split.
    + intros [Hc Hs]%Forall_cons. rewrite Hc. f_equal. by apply IH.
    + destruct (Py_UNICODE_ISSPACE c) eqn:Hc; [|done].
      intros [= H]. constructor; [done|]. by apply IH.
Qed.

Lemma is_fill_iff_blank chunk :
  is_fill chunk = true ↔ Forall (λ c, Py_UNICODE_ISSPACE c = true) chunk.
Proof.
  unfold is_fill, FILL_PATTERN_match. rewrite bool_decide_eq_true. split.
  - intros [e He]. apply greedy_spec in He as (m & Hm & Hk). simpl in Hk.
    unfold at_dollar in Hk.
    destruct ((m =? length chunk)%nat
              || (S m =? length chunk)%nat && bool_decide (chunk !! m = Some 10%N))
      eqn:Ht; [|done].
    apply Forall_lookup. intros i c Hc.
    assert (Hi := lookup_lt_Some _ _ _ Hc).
    destruct (decide (i < m)%nat) as [Hlt|Hge].
    + destruct (run_spec Py_UNICODE_ISSPACE chunk 0 i) as (c' & Hc' & Hs); [lia|].
      congruence.
    + apply orb_prop in Ht as [Ht%Nat.eqb_eq|[Ht%Nat.eqb_eq Hnl]%andb_prop]; [lia|].
      apply bool_decide_eq_true in Hnl. replace i with m in Hc by lia.
      rewrite Hnl in Hc. by injection Hc as <-.
  - intros Hall. apply run_all_spaces in Hall.
    destruct (greedy (at_dollar chunk) 0 0 (run Py_UNICODE_ISSPACE chunk 0)) eqn:Hg;
      [done|].
    assert (Hk := greedy_none _ _ _ _ Hg (length chunk)).
    rewrite Hall in Hk. specialize (Hk (conj (Nat.le_0_l _) (Nat.le_refl _))).
    simpl in Hk. unfold at_dollar in Hk. by rewrite Nat.eqb_refl in Hk.
Qed.

(** A chunk is fill exactly when all its characters are whitespace;
    the empty chunk is fill. *)
Theorem is_fill_blank chunk :
  is_fill chunk = true ↔ Forall (λ c, Py_UNICODE_ISSPACE c = true) chunk.
Proof. apply is_fill_iff_blank. Qed.

(** ** Substrings of a partition *)

Lemma substrings_from_well_formed start0 cs :
  well_formed start0 (substrings_from start0 cs).
Proof.
  assert (H : ∀ cs start0 previous, previous ≤ start0 →
              well_formed previous (substrings_from start0 cs)).
  { clear. induction cs as [|chunk rest IH]; intros start0 previous Hp; simpl; [done|].
    destruct (is_fill chunk) eqn:Hf; simpl.
    - apply IH. unfold len. lia.
    - split_and!; [done|done|done|]. apply IH. lia. }
  by apply H.
Qed.

(** The substrings of a partition come in order without overlap, each
    as long as its text and none of them fill. *)
Theorem substrings_well_formed p : well_formed 0 (substrings p).
Proof. apply substrings_from_well_formed. Qed.

Lemma substrings_from_slices before cs sub :
  sub ∈ substrings_from (len before) cs →
  len before ≤ start sub ∧ stop sub ≤ len (before ++ mjoin cs)
  ∧ slice (before ++ mjoin cs) (start sub) (stop sub) = text sub.
Proof.
  revert before. induction cs as [|chunk rest IH]; intros before; simpl.
  - by intros ?%elem_of_nil.
  - assert (Hlen : len before + len chunk = len (before ++ chunk))
      by (unfold len; rewrite length_app; lia).
    intros [Hin|Hin]%elem_of_app.
    + destruct (is_fill chunk); simpl in Hin; [by apply elem_of_nil in Hin|].
      apply list_elem_of_singleton in Hin as ->. simpl.
      split; [done|]. split.
      * unfold len. rewrite !length_app. lia.
      * apply slice_middle.
    + rewrite Hlen in Hin. apply IH in Hin as (H1 & H2 & H3).
      rewrite <- (assoc_L (++)) in H2, H3. unfold len in *.
      rewrite length_app in H1. split_and!; [lia|done|done].
Qed.

(** Every substring of a partition lies inside the text of the
    partition, and the text between its offsets is its own text. *)
Theorem substrings_slices p sub :
  sub ∈ substrings p →
  0 ≤ start sub ∧ stop sub ≤ len (partition_text p)
  ∧ slice (partition_text p) (start sub) (stop sub) = text sub.
Proof. intros Hin. by apply (substrings_from_slices [] (chunks p) sub). Qed.

Lemma substrings_slices_witness :
  0 ≤ 3 ∧ 4 ≤ len (partition_text {| chunks := [u8 "ab"; u8 " "; u8 "c"] |})
  ∧ slice (partition_text {| chunks := [u8 "ab"; u8 " "; u8 "c"] |}) 3 4 = u8 "c".
Proof.
  apply (substrings_slices {| chunks := [u8 "ab"; u8 " "; u8 "c"] |}
           {| start := 3; stop := 4; text := u8 "c" |}).
  vm_compute. right. left.
Defined.

(** ** Rebuilding a partition from substrings *)

Lemma py_repeat_fill size :
  0 < size →
  is_fill (py_repeat FILL size) = true ∧ len (py_repeat FILL size) = size.
Proof.
  intros Hs. unfold py_repeat. split.
  - apply is_fill_iff_blank. generalize (Z.to_nat size). intros n.
    induction n as [|n IH]; simpl; [constructor|]. by constructor.
  - unfold len. assert (H : ∀ n, length (mjoin (replicate n FILL)) = n).
    { induction n as [|n IH]; simpl; [done|]. by rewrite IH. }
    rewrite H. lia.
Qed.

Lemma substrings_of_chunks_from index previous d subs :
  well_formed previous subs →
  substrings_from (previous - d) (substring_chunks_from FILL (S index) previous subs)
  = shift d <$> subs.
Proof.
  revert index previous. induction subs as [|s rest IH]; intros index previous; simpl;
    [done|].
  intros (Hprev & Hstop & Hfill & Hrest).
  destruct (start s - previous =? 0) eqn:Hsize; simpl.
  - apply Z.eqb_eq in Hsize. rewrite Hfill. simpl. f_equal.
    + unfold shift. f_equal; lia.
    + replace (previous - d + len (text s)) with (stop s - d) by lia. by apply IH.
  - apply Z.eqb_neq in Hsize.
    destruct (py_repeat_fill (start s - previous)) as [Hf Hl]; [lia|].
    rewrite Hf, Hl, Hfill. simpl. f_equal.
    + unfold shift. f_equal; lia.
    + replace (previous - d + (start s - previous) + len (text s))
        with (stop s - d) by lia.
      by apply IH.
Qed.

Lemma substrings_rebuilt previous s rest :
  well_formed previous (s :: rest) →
  substrings (from_substrings (s :: rest)) = shift (start s) <$> (s :: rest).
Proof.
  simpl. intros (_ & Hstop & Hfill & Hrest).
  unfold substrings, from_substrings, substring_chunks. simpl.
  rewrite Hfill. simpl. f_equal.
  - unfold shift. f_equal; lia.
  - replace (0 + len (text s)) with (stop s - start s) by lia.
    by apply substrings_of_chunks_from.
Qed.

(** Rebuilding a partition from substrings that are in order, do not
    overlap, are as long as their texts and are not blank, and reading
    its substrings again, gives the same substrings moved so that the
    first one starts at offset 0. *)
Theorem substrings_from_substrings previous s rest :
  well_formed previous (s :: rest) →
  substrings (from_substrings (s :: rest)) = shift (start s) <$> (s :: rest).
Proof. apply substrings_rebuilt. Qed.

Lemma substrings_from_substrings_witness :
  substrings (from_substrings [{| start := 2; stop := 4; text := u8 "ab" |};
                               {| start := 6; stop := 7; text := u8 "c" |}])
  = shift 2 <$> [{| start := 2; stop := 4; text := u8 "ab" |};
                 {| start := 6; stop := 7; text := u8 "c" |}].
Proof.
  apply (substrings_from_substrings 0 {| start := 2; stop := 4; text := u8 "ab" |}
           [{| start := 6; stop := 7; text := u8 "c" |}]).
  simpl. split_and!; try done; vm_compute; (reflexivity || discriminate).
Defined.

(** Updating a partition with the segmenter that returns its own
    substrings keeps the substrings, up to the offset of the first. *)
Theorem update_partition_own_substrings p s rest :
  substrings p = s :: rest →
  substrings (update_partition p (λ _, substrings p)) = shift (start s) <$> substrings p.
Proof.
  intros Hp. unfold update_partition. rewrite Hp.
  apply (substrings_rebuilt 0). rewrite <- Hp. apply substrings_from_well_formed.
Qed.

Lemma update_partition_own_substrings_witness :
  substrings (update_partition {| chunks := [u8 " "; u8 "ab"; u8 "  "; u8 "c"] |}
                (λ _, substrings {| chunks := [u8 " "; u8 "ab"; u8 "  "; u8 "c"] |}))
  = shift (start {| start := 1; stop := 3; text := u8 "ab" |})
      <$> substrings {| chunks := [u8 " "; u8 "ab"; u8 "  "; u8 "c"] |}.
Proof.
  apply (update_partition_own_substrings
           {| chunks := [u8 " "; u8 "ab"; u8 "  "; u8 "c"] |}
           {| start := 1; stop := 3; text := u8 "ab" |}
           [{| start := 5; stop := 6; text := u8 "c" |}]).
  vm_compute. reflexivity.
Defined.

(** ** Splitting, joining and replacing on one character *)

Lemma split_go_join c cur s : py_join [c] (split_go [c] 0 cur s) = cur ++ s.
Proof.
  revert cur. induction s as [|d r IH]; intros cur; simpl.
  - by rewrite app_nil_r.
  - case_bool_decide as Hd.
    + injection Hd as ->. specialize (IH []).
      destruct (split_go [c] 0 [] r) as [|x l] eqn:Hs; simpl in *.
      * by destruct r.
      * by rewrite IH.
    + rewrite IH. by rewrite <- (assoc_L (++)).
Qed.

Lemma split_go_cons c cur s : ∃ x l, split_go [c] 0 cur s = x :: l.
Proof.
  revert cur. induction s as [|d r IH]; intros cur; simpl; [by eexists _, _|].
  case_bool_decide; [by eexists _, _|]. apply IH.
Qed.

Lemma split_go_until c cur x t :
  c ∉ x → split_go [c] 0 cur (x ++ c :: t) = (cur ++ x) :: split_go [c] 0 [] t.
Proof.
  revert cur. induction x as [|d x IH]; intros cur Hx; simpl.
  - rewrite bool_decide_true by done. by rewrite app_nil_r.
  - apply not_elem_of_cons in Hx as [Hd Hx].
    rewrite bool_decide_false by (intros [= ->]; done).
    rewrite IH by done. by rewrite <- (assoc_L (++)).
Qed.

Lemma split_go_none c cur x : c ∉ x → split_go [c] 0 cur x = [cur ++ x].
Proof.
  revert cur. induction x as [|d x IH]; intros cur Hx; simpl.
  - by rewrite app_nil_r.
  - apply not_elem_of_cons in Hx as [Hd Hx].
    rewrite bool_decide_false by (intros [= ->]; done).
    rewrite IH by done. by rewrite <- (assoc_L (++)).
Qed.

Lemma split_go_of_join c cur x rest :
  Forall (λ part, c ∉ part) (x :: rest) →
  split_go [c] 0 cur (py_join [c] (x :: rest)) = (cur ++ x) :: rest.
Proof.
  revert cur x. induction rest as [|y rest IH]; intros cur x [Hx Hrest]%Forall_cons.
  - simpl. by apply split_go_none.
  - change (py_join [c] (x :: y :: rest)) with (x ++ c :: py_join [c] (y :: rest)).
    rewrite split_go_until by done. f_equal. by apply (IH [] y).
Qed.

Lemma split_go_parts c cur s part :
  part ∈ split_go [c] 0 cur s → ∀ d, d ∈ part → d ≠ c ∧ d ∈ s ∨ d ∈ cur.
Proof.
  revert cur. induction s as [|e r IH]; intros cur; simpl.
  - intros ->%list_elem_of_singleton d Hd. by right.
  - case_bool_decide as He.
    + injection He as ->. intros [->|Hin]%elem_of_cons d Hd; [by right|].
      destruct (IH [] Hin d Hd) as [[? ?]|?%elem_of_nil]; [|done].
      left. split; [done|by right].
    + intros Hin d Hd. destruct (IH _ Hin d Hd) as [[? ?]|[?| ->%list_elem_of_singleton]%elem_of_app].
      * left. split; [done|by right].
      * by right.
      * left. split; [by intros ->|by left].
Qed.

Lemma split_go_text c cur s :
  mjoin (split_go [c] 0 cur s) = cur ++ filter (λ d, d ≠ c) s
  ∧ length (split_go [c] 0 cur s) = S (length (filter (λ d, d = c) s)).
Proof.
  revert cur. induction s as [|d r IH]; intros cur; simpl.
  - by rewrite !app_nil_r.
  - case_bool_decide as Hd.
    + injection Hd as ->. destruct (IH []) as [H1 H2].
      rewrite filter_cons_False by (by intros ?). rewrite filter_cons_True by done.
      simpl. by rewrite H1, H2.
    + assert (d ≠ c) by (by intros ->). destruct (IH (cur ++ [d])) as [H1 H2].
      rewrite filter_cons_True by done. rewrite filter_cons_False by done.
      rewrite H1, H2. by rewrite <- (assoc_L (++)).
Qed.

Lemma replace_go_none c new s : c ∉ s → replace_go [c] new 0 s = s.
Proof.
  induction s as [|d r IH]; simpl; [done|]. intros [Hd Hr]%not_elem_of_cons.
  rewrite bool_decide_false by (intros [= ->]; done). by rewrite IH.
Qed.

Lemma replace_go_elem c new s d :
  d ∈ replace_go [c] new 0 s → d ∈ new ∨ d ≠ c ∧ d ∈ s.
Proof.
  induction s as [|e r IH]; simpl; [by intros ?%elem_of_nil|].
  case_bool_decide as He.
  - injection He as ->. intros [?|Hin]%elem_of_app; [by left|].
    destruct (IH Hin) as [?|[? ?]]; [by left|right; split; [done|by right]].
  - intros [->|Hin]%elem_of_cons.
    + right. split; [by intros ->|by left].
    + destruct (IH Hin) as [?|[? ?]]; [by left|right; split; [done|by right]].
Qed.

Lemma py_join_elem sep parts d :
  d ∈ py_join sep parts → d ∈ sep ∨ ∃ part, part ∈ parts ∧ d ∈ part.
Proof.
  induction parts as [|x rest IH]; simpl; [by intros ?%elem_of_nil|].
  destruct rest as [|y rest].
  - intros Hd. right. exists x. split; [by left|done].
  - intros [Hd|[Hd|Hd]%elem_of_app]%elem_of_app.
    + right. exists x. split; [by left|done].
    + by left.
    + destruct (IH Hd) as [?|(part & Hp & ?)]; [by left|].
      right. exists part. split; [by right|done].
Qed.

Lemma fmap_fixed {A} (f : A → A) (l : list A) :
  Forall (λ x, f x = x) l → f <$> l = l.
Proof. induction 1 as [|x l Hx _ IH]; [done|]. rewrite fmap_cons. by rewrite Hx, IH. Qed.

Lemma escape_chunk_unfold chunk :
  escape_chunk chunk
  = replace_go [10%N] [92; 110]%N 0 (replace_go [124%N] [92; 124]%N 0 chunk).
Proof. reflexivity. Qed.

Lemma escape_chunk_plain chunk :
  124%N ∉ chunk → 10%N ∉ chunk → escape_chunk chunk = chunk.
Proof.
  intros Hbar Hnl. rewrite escape_chunk_unfold.
  by rewrite (replace_go_none 124%N), (replace_go_none 10%N).
Qed.

Lemma parse_partition_unfold line :
  parse_partition line = Some {| chunks := split_go [124%N] 0 [] line |}.
Proof. reflexivity. Qed.

(** ** Partition lines *)

(** A line without a newline is given back by formatting the
    partition parsed from it. *)
Theorem format_parse_partition line :
  10%N ∉ line → format_partition <$> parse_partition line = Some line.
Proof.
  intros Hnl. rewrite parse_partition_unfold. simpl. f_equal.
  unfold format_partition. simpl chunks.
  assert (Hplain : Forall (λ part, escape_chunk part = part)
                     (split_go [124%N] 0 [] line)).
  { apply Forall_forall. intros part Hpart. apply escape_chunk_plain.
    - intros Hin. by destruct (split_go_parts _ _ _ _ Hpart _ Hin) as [[? _]|?%elem_of_nil].
    - intros Hin. by destruct (split_go_parts _ _ _ _ Hpart _ Hin) as [[_ ?]|?%elem_of_nil]. }
  rewrite (fmap_fixed _ _ Hplain).
  apply (split_go_join 124%N []).
Qed.

(** A partition with at least one chunk whose chunks hold neither a
    bar nor a newline is given back by parsing its formatted line. *)
Theorem parse_format_partition p :
  chunks p ≠ [] → Forall (λ chunk, (124%N ∉ chunk) ∧ (10%N ∉ chunk)) (chunks p) →
  parse_partition (format_partition p) = Some p.
Proof.
  destruct p as [cs]. simpl. intros Hne Hall.
  rewrite parse_partition_unfold. do 2 f_equal. unfold format_partition. simpl.
  assert (Hplain : Forall (λ part, escape_chunk part = part) cs).
  { eapply Forall_impl; [exact Hall|]. intros part [? ?]. by apply escape_chunk_plain. }
  rewrite (fmap_fixed _ _ Hplain).
  destruct cs as [|x rest]; [done|].
  rewrite split_go_of_join; [done|].
  eapply Forall_impl; [exact Hall|]. by intros part [? ?].
Qed.

(** Parsing a line never fails; the text of the partition is the line
    without its bars, and there is one chunk more than there are
    bars. *)
Theorem parse_partition_text line :
  ∃ p, parse_partition line = Some p
       ∧ partition_text p = filter (λ d, d ≠ 124%N) line
       ∧ length (chunks p) = S (length (filter (λ d, d = 124%N) line)).
Proof.
  eexists. split; [apply parse_partition_unfold|]. unfold partition_text. simpl.
  apply (split_go_text 124%N []).
Qed.

(** A formatted partition is one line: it holds no newline. *)
Theorem format_partition_one_line p : 10%N ∉ format_partition p.
Proof.
  unfold format_partition. intros [Hsep|(part & Hpart & Hin)]%py_join_elem.
  - vm_compute in Hsep. by apply list_elem_of_singleton in Hsep.
  - apply list_elem_of_fmap in Hpart as (chunk & -> & _).
    rewrite escape_chunk_unfold in Hin.
    apply replace_go_elem in Hin as [Hin|[? _]]; [|done].
    vm_compute in Hin.
    by repeat (apply elem_of_cons in Hin as [?|Hin]; [done|]); apply elem_of_nil in Hin.
Qed.

Lemma format_parse_partition_witness :
  format_partition <$> parse_partition (u8 "»||.") = Some (u8 "»||.").
Proof.
  apply (format_parse_partition (u8 "»||.")).
  vm_compute. intros Hin.
  by repeat (apply elem_of_cons in Hin as [?|Hin]; [done|]); apply elem_of_nil in Hin.
Defined.

Lemma parse_format_partition_witness :
  parse_partition (format_partition {| chunks := [u8 ":)"; u8 ""; u8 ","] |})
  = Some {| chunks := [u8 ":)"; u8 ""; u8 ","] |}.
Proof.
  apply (parse_format_partition {| chunks := [u8 ":)"; u8 ""; u8 ","] |}); [done|].
  vm_compute. repeat constructor; intros Hin;
    by repeat (apply elem_of_cons in Hin as [?|Hin]; [done|]); apply elem_of_nil in Hin.
Defined.

(** ** Bars inside chunks *)

Lemma replace_go_char_cons c new d r :
  replace_go [c] new 0 (d :: r)
  = if bool_decide (d = c) then new ++ replace_go [c] new 0 r
    else d :: replace_go [c] new 0 r.
Proof.
  simpl. case_bool_decide as H1; case_bool_decide as H2; try done.
  - by injection H1.
  - by subst.
Qed.

Lemma bars_replace_bar s :
  length (filter (λ d, d = 124%N) (replace_go [124%N] [92; 124]%N 0 s))
  = length (filter (λ d, d = 124%N) s).
Proof.
  induction s as [|d r IH]; [done|]. rewrite replace_go_char_cons.
  case_bool_decide as Hd.
  - subst d. rewrite filter_app, length_app, IH.
    by rewrite (filter_cons_True _ 124%N r).
  - by rewrite !(filter_cons_False _ d).
Qed.

Lemma bars_replace_newline s :
  length (filter (λ d, d = 124%N) (replace_go [10%N] [92; 110]%N 0 s))
  = length (filter (λ d, d = 124%N) s).
Proof.
  induction s as [|d r IH]; [done|]. rewrite replace_go_char_cons.
  case_bool_decide as Hd.
  - subst d. rewrite filter_app, length_app, IH.
    by rewrite (filter_cons_False _ 10%N r).
  - destruct (decide (d = 124%N)) as [->|Hb].
    + rewrite !(filter_cons_True _ 124%N) by done. simpl. by rewrite IH.
    + by rewrite !(filter_cons_False _ d).
Qed.

Lemma bars_join x rest :
  length (filter (λ d, d = 124%N) (py_join [124%N] (x :: rest)))
  = (length rest
     + sum_list ((λ part, length (filter (λ d, d = 124%N) part)) <$> (x :: rest)))%nat.
Proof.
  revert x. induction rest as [|y rest IH]; intros x.
  - simpl. lia.
  - change (py_join [124%N] (x :: y :: rest))
      with (x ++ 124%N :: py_join [124%N] (y :: rest)).
    rewrite filter_app, length_app, (filter_cons_True _ 124%N) by done.
    rewrite !length_cons, IH, !fmap_cons. simpl sum_list. lia.
Qed.

(** Parsing a formatted partition splits at every bar, the escaped
    ones included: a chunk with k bars comes back as k + 1 chunks, and
    the partition without chunks comes back with one empty chunk. *)
Theorem parse_format_partition_chunks p :
  ∃ q, parse_partition (format_partition p) = Some q
       ∧ length (chunks q)
         = (max 1 (length (chunks p))
            + sum_list ((λ chunk, length (filter (λ d, d = 124%N) chunk)) <$> chunks p))%nat.
Proof.
  eexists. split; [apply parse_partition_unfold|]. simpl.
  rewrite (proj2 (split_go_text 124%N [] _)). unfold format_partition.
  destruct (chunks p) as [|x rest]; [done|].
  rewrite fmap_cons, bars_join, length_fmap. simpl length.
  assert (Hsame : ∀ l : list str,
    (λ part, length (filter (λ d, d = 124%N) part)) <$> (escape_chunk <$> l)
    = (λ chunk, length (filter (λ d, d = 124%N) chunk)) <$> l).
  { induction l as [|c l IH]; [done|]. rewrite !fmap_cons, IH. f_equal.
    by rewrite escape_chunk_unfold, bars_replace_newline, bars_replace_bar. }
  rewrite <- fmap_cons, Hsame. simpl. lia.
Qed.

(** ** Texts without initials *)

Section NoInitials.
Context {U : UnicodeData}.

Hypothesis lower_snoc : ∀ s c,
  cls_end c = true ∨ Py_UNICODE_ISSPACE c = true →
  str_lower (s ++ [c]) = str_lower s ++ [c].
Hypothesis lower_nil : str_lower [] = [].
Hypothesis space_not_digit : ∀ c, Py_UNICODE_ISSPACE c = true → ch_isdigit c = false.

(** In a text where no upper-case Cyrillic letter is directly followed
    by a period nothing is blocked: the result is the set of all
    match ends of the three rules. *)
Theorem no_initial_all_candidates text bs b :
  (∀ i c, text !! i = Some c → cls_upper c = true → text !! S i ≠ Some (ord ".")) →
  find_sentence_boundaries __init__ text = Some bs →
  b ∈ bs ↔ ∃ rule m, rule ∈ rules __init__ ∧ m ∈ finditer (pattern rule) text
                     ∧ b = Z.of_nat m.2.
Proof.
  intros Hno Hbs. rewrite (result_elem_accepted _ _ _ b Hbs). unfold accepted. split.
  - intros (rule & m & Hrule & _ & Hm & -> & _). by exists rule, m.
  - intros (rule & m & Hrule & Hm & ->). exists rule, m. split_and!; try done.
    + revert Hrule. simpl. rewrite !elem_of_cons, elem_of_nil.
      by intros [->|[->|[->|[]]]].
    + rewrite (candidate_answer lower_snoc lower_nil space_not_digit
                 __init__ rule text m Hrule Hm).
      f_equal. destruct (is_initials_context __init__ text (Z.of_nat m.2)) eqn:Hctx;
        [|done].
      destruct (initials_context_initial text _ (Nat2Z.is_nonneg _) Hctx)
        as (i & c & _ & _ & Hc & Hup & Hdot).
      by destruct (Hno i c Hc Hup).
Qed.

End NoInitials.

Lemma no_initial_all_candidates_witness :
  16 ∈ [8; 16] ↔
  ∃ rule m, rule ∈ rules __init__
            ∧ m ∈ finditer (U:=excerpt) (pattern rule) text_three
            ∧ 16 = Z.of_nat m.2.
Proof.
  apply (no_initial_all_candidates (U:=excerpt) excerpt_lower_snoc eq_refl
           excerpt_space_not_digit text_three [8; 16] 16).
  - intros i c Hc Hup.
    do 23 (destruct i as [|i]; [vm_compute in Hc; injection Hc as <-;
                                first [discriminate Hup | vm_compute; discriminate]|]).
    vm_compute in Hc. discriminate.
  - vm_compute. reflexivity.
Defined.
